(** * Beancount ledger to JSONL conversion

    A shallow embedding of [src/processor/ledger/beancount_to_jsonl.py]
    and the properties of its entry extractor, record emitter, file
    locator and companion reader.

    Python [str] values are lists of characters.  A character is its
    code point, a number: the code points of Unicode are the numbers
    below 0x110000, the surrogates (0xD800 to 0xDFFF) among them, which
    a [str] can hold and UTF-8 cannot encode.  A character literal
    stands for the code point of the character.  Python [bytes] are
    lists of [byte].

    The library functions that the program calls ([re.split],
    [re.match], [str.strip], [json.dumps], [json.loads], text files,
    [pathlib]) are modelled as CPython 3.11 behaves, on a platform
    whose line separator is the line feed.  What the sources do not
    hold is a parameter: the constant [empty_escape_sequences], the
    helper [get_absolute_path], [glob.glob], the iteration order of a
    set, the preferred encoding of the locale and the gzip codec. *)

From Stdlib Require Import Ascii String ZArith Lia.
From stdpp Require Import base option list gmap strings.

Abbreviation char := N.
Abbreviation str := (list char).
Abbreviation bytes := (list Byte.byte).

(** A character literal, read as the code point of its one byte. *)
Definition char_literal (s : bytes) : option char :=
  match s with
  | [b] => Some (Byte.to_N b)
  | _ => None
  end.

(** Code points are printed as numbers. *)
Definition char_print (c : char) : option bytes := None.

Declare Scope chr_scope.
Delimit Scope chr_scope with chr.
String Notation N char_literal char_print : chr_scope.

Local Open Scope chr_scope.
Local Open Scope list_scope.

(** String literals of the Python source, as character lists. *)
Definition lit (s : string) : str := N_of_ascii <$> list_ascii_of_string s.

(** ** Characters *)

Module Chr.

Definition LF : char := 10%N.
Definition CR : char := 13%N.
Definition TAB : char := 9%N.
Definition BS : char := 8%N.
Definition FF : char := 12%N.
Definition QUOTE : char := 34%N.
Definition BACKSLASH : char := 92%N.

(** [ord(c)]. *)
Definition code (c : char) : N := c.

(** The first code point of every run of ten decimal digits (the
    characters of category Nd) in Unicode 14.0, the version of
    CPython 3.11. *)
Definition decimal_blocks : list N :=
  [0x30; 0x660; 0x6F0; 0x7C0; 0x966; 0x9E6; 0xA66; 0xAE6; 0xB66; 0xBE6;
   0xC66; 0xCE6; 0xD66; 0xDE6; 0xE50; 0xED0; 0xF20; 0x1040; 0x1090; 0x17E0;
   0x1810; 0x1946; 0x19D0; 0x1A80; 0x1A90; 0x1B50; 0x1BB0; 0x1C40; 0x1C50;
   0xA620; 0xA8D0; 0xA900; 0xA9D0; 0xA9F0; 0xAA50; 0xABF0; 0xFF10; 0x104A0;
   0x10D30; 0x11066; 0x110F0; 0x11136; 0x111D0; 0x112F0; 0x11450; 0x114D0;
   0x11650; 0x116C0; 0x11730; 0x118E0; 0x11950; 0x11C50; 0x11D50; 0x11DA0;
   0x16A60; 0x16AC0; 0x16B50; 0x1D7CE; 0x1D7D8; 0x1D7E2; 0x1D7EC; 0x1D7F6;
   0x1E140; 0x1E2F0; 0x1E950; 0x1FBF0]%N.

(** [\d] of the [re] module for a [str] pattern: a decimal digit of
    any script, the ten ASCII digits among them. *)
Definition is_digit (c : char) : bool :=
  existsb (λ lo, (lo <=? code c) && (code c <? lo + 10))%N decimal_blocks.

(** A Unicode scalar value: a code point that is no surrogate.  These
    are the characters that a text encoding can encode. *)
Definition scalar (c : char) : bool :=
  ((code c <? 0xD800) || (0xDFFF <? code c) && (code c <? 0x110000))%N.

Definition eqc (a c : char) : bool := bool_decide (c = a).

End Chr.

Import Chr.

(** ** [str] methods *)

Module Str.

(** Membership in the [chars] argument of [str.strip]. *)
Definition mem (chars : str) (c : char) : bool := bool_decide (c ∈ chars).

Fixpoint lstrip (chars s : str) : str :=
  match s with
  | [] => []
  | c :: tl => if mem chars c then lstrip chars tl else s
  end.

Definition rstrip (chars s : str) : str :=
  reverse (lstrip chars (reverse s)).

(** [s.strip(chars)]: remove the leading and the trailing characters
    that occur in [chars]. *)
Definition strip (chars s : str) : str := rstrip chars (lstrip chars s).

(** [s.startswith(p)]. *)
Fixpoint startswith (p s : str) : bool :=
  match p, s with
  | [], _ => true
  | _ :: _, [] => false
  | a :: p', c :: s' => bool_decide (a = c) && startswith p' s'
  end.

(** [s.endswith(p)]. *)
Definition endswith (p s : str) : bool :=
  startswith (reverse p) (reverse s).

(** [s.split('\n')]: the pieces between line feeds. *)
Fixpoint split_lines (s : str) : list str :=
  match s with
  | [] => [[]]
  | c :: tl =>
      if eqc LF c then [] :: split_lines tl
      else match split_lines tl with
           | l :: ls => (c :: l) :: ls
           | [] => [[c]]
           end
  end.

(** ['\n'.join(ls)]. *)
Fixpoint join_lines (ls : list str) : str :=
  match ls with
  | [] => []
  | [l] => l
  | l :: ls' => l ++ LF :: join_lines ls'
  end.

End Str.

(** ** The two regular expressions of the extractor *)

Module Regex.

(** *** [transaction_regex = r'^\n?\d{4}-\d{2}-\d{2} [\*|\!] '] *)

(** The set [[\*|\!]]: inside brackets the bar is an ordinary member,
    so the set holds three characters. *)
Definition marker_set (c : char) : bool :=
  eqc "*" c || eqc "|" c || eqc "!" c.

(** The part of the pattern after [^\n?], one single-character test
    per position: [\d{4}-\d{2}-\d{2} [\*|\!] ]. *)
Definition date_marker : list (char → bool) :=
  [ is_digit; is_digit; is_digit; is_digit; eqc "-";
    is_digit; is_digit; eqc "-"; is_digit; is_digit;
    eqc " "; marker_set; eqc " " ].

(** Match a sequence of single-character tests at the head of [s]. *)
Fixpoint match_seq (pat : list (char → bool)) (s : str) : bool :=
  match pat, s with
  | [], _ => true
  | _ :: _, [] => false
  | p :: pat', c :: s' => p c && match_seq pat' s'
  end.

(** [re.match(transaction_regex, s)] is not [None].  [\n?] is greedy:
    a leading line feed is consumed first, and given back when the
    rest fails after it. *)
Definition transaction_match (s : str) : bool :=
  match s with
  | c :: s' =>
      if eqc LF c then match_seq date_marker s' || match_seq date_marker s
      else match_seq date_marker s
  | [] => match_seq date_marker s
  end.

(** *** [empty_newline = f'^[{empty_escape_sequences}]*$'] *)

(** An escape inside a character set. *)
Definition set_escape (e : char) : option char :=
  if eqc "n" e then Some LF
  else if eqc "r" e then Some CR
  else if eqc "t" e then Some TAB
  else if eqc BACKSLASH e then Some BACKSLASH
  else None.

(** The members of the set [[...]] whose body is [body].  [None]: the
    body uses set syntax that is not modelled here (a closing or an
    opening bracket, a caret, a range, an escape other than
    [\n \r \t \\]) or is empty. *)
Fixpoint set_items (body : str) : option (list char) :=
  match body with
  | [] => Some []
  | c :: tl =>
      if eqc BACKSLASH c then
        match tl with
        | e :: tl' =>
            x ← set_escape e; xs ← set_items tl'; Some (x :: xs)
        | [] => None
        end
      else if eqc "]" c || eqc "[" c || eqc "^" c || eqc "-" c then None
      else xs ← set_items tl; Some (c :: xs)
  end.

Definition set_members (body : str) : option (list char) :=
  match body with
  | [] => None
  | _ => set_items body
  end.

Section Blank.

(** The members of the set in [empty_newline]. *)
Variable cls : list char.

(** [[cls]*$] at the head of [s], greedy with backtracking: the
    longest run of set members after which [$] holds.  With
    [re.MULTILINE], [$] holds at the end of the text and before a
    line feed. *)
Fixpoint greedy (s : str) : option nat :=
  match s with
  | [] => Some 0
  | c :: tl =>
      if Str.mem cls c then
        match greedy tl with
        | Some k => Some (S k)
        | None => if eqc LF c then Some 0 else None
        end
      else if eqc LF c then Some 0 else None
  end.

(** The same when the engine must advance: the empty match at the
    starting position is refused. *)
Definition greedy_nonempty (s : str) : option nat :=
  match s with
  | c :: tl => if Str.mem cls c then S <$> greedy tl else None
  | [] => None
  end.

(** One attempt of [^[cls]*$] at the current position.  [bol] says
    whether [^] holds there: with [re.MULTILINE], at the start of
    the text and after a line feed.  The result is the length of
    the match. *)
Definition attempt (must_advance bol : bool) (s : str) : option nat :=
  if bol then
    if must_advance then greedy_nonempty s else greedy s
  else None.

(** Whether [^] holds after the text [t], when it held or not
    ([bol]) before it. *)
Definition bol_after (bol : bool) (t : str) : bool :=
  match last t with
  | Some c => eqc LF c
  | None => bol
  end.

(** [pattern.search] from the current position: the leftmost
    position where an attempt succeeds.  Only the attempt at the
    starting position is subject to [must_advance].  The result is
    the text before the match, the match, and the text after it. *)
Fixpoint search (must_advance bol : bool) (s : str)
  : option (str * str * str) :=
  match attempt must_advance bol s with
  | Some k => Some ([], take k s, drop k s)
  | None =>
      match s with
      | [] => None
      | c :: tl =>
          '(pre, m, post) ← search false (eqc LF c) tl;
          Some (c :: pre, m, post)
      end
  end.

(** The loop of [re.split(pattern, s, maxsplit)] for a pattern
    without groups, as of Python 3.7, where an empty match splits too:
    search from the end of the last match, emit the text before the
    match, continue after it; an empty match makes the next search
    advance.  When [maxsplit] matches have been
    used, or no match is left, the remaining text is the last
    piece. *)
Fixpoint split_loop (maxsplit : nat) (must_advance bol : bool) (s : str)
  : list str :=
  match maxsplit with
  | 0 => [s]
  | S n =>
      match search must_advance bol s with
      | None => [s]
      | Some (pre, m, post) =>
          pre :: split_loop n (bool_decide (m = []))
                   (bol_after bol (pre ++ m)) post
      end
  end.

(** [re.split(empty_newline, s, flags=re.MULTILINE)].  Python's
    default [maxsplit=0] puts no limit on the number of matches;
    between two matches the loop moves forward in the text or
    turns [must_advance] on, so [2 * len(s) + 2] matches are never
    reached (lemma [split_loop_limit] below). *)
Definition split (s : str) : list str :=
  split_loop (2 * length s + 2) false true s.

End Blank.

(** The pieces [ps] with [acc] put in front of the first one. *)
Definition cont (acc : str) (ps : list str) : list str :=
  match ps with
  | p :: ps' => (acc ++ p) :: ps'
  | [] => [acc]
  end.

(** The lines [ls], each followed by a line feed. *)
Definition unlines (ls : list str) : str :=
  concat ((λ l, l ++ [LF]) <$> ls).

End Regex.


(** ** Text encodings, JSON *)

Module Codec.

(** A text encoding: [str.encode] and [bytes.decode] with
    [errors='strict'].  [None] stands for [UnicodeError]. *)
Record codec := Codec {
  encode : str → option bytes;
  decode : bytes → option str
}.

(** The byte of a number below 256. *)
Definition byte_of_N (n : N) : Byte.byte := default Byte.x00 (Byte.of_N n).

(** The UTF-8 form of a scalar value: one to four bytes. *)
Definition utf8_char (c : char) : bytes :=
  let n := code c in
  if (n <? 0x80)%N then [byte_of_N n]
  else if (n <? 0x800)%N then
    [byte_of_N (0xC0 + n / 64); byte_of_N (0x80 + n mod 64)]
  else if (n <? 0x10000)%N then
    [byte_of_N (0xE0 + n / 4096); byte_of_N (0x80 + (n / 64) mod 64);
     byte_of_N (0x80 + n mod 64)]
  else
    [byte_of_N (0xF0 + n / 262144); byte_of_N (0x80 + (n / 4096) mod 64);
     byte_of_N (0x80 + (n / 64) mod 64); byte_of_N (0x80 + n mod 64)].

(** [s.encode('utf-8')]: a surrogate cannot be encoded
    ([UnicodeEncodeError]). *)
Definition utf8_encode (s : str) : option bytes :=
  if forallb scalar s then Some (flat_map utf8_char s) else None.

(** The six low bits of a continuation byte [10xxxxxx]. *)
Definition continuation (b : Byte.byte) : option N :=
  let n := Byte.to_N b in
  if ((0x80 <=? n) && (n <? 0xC0))%N then Some (n - 0x80)%N else None.

(** [b.decode('utf-8')]: sequences of one to four bytes.  [None]
    ([UnicodeDecodeError]): a byte that starts no sequence, a missing
    or wrong continuation byte, a sequence longer than its code point
    needs, a surrogate, a number of 0x110000 or more. *)
Fixpoint utf8_decode (b : bytes) : option str :=
  match b with
  | [] => Some []
  | x :: tl =>
      let n := Byte.to_N x in
      if (n <? 0x80)%N then
        s ← utf8_decode tl; Some (n :: s)
      else if (n <? 0xC0)%N then None
      else if (n <? 0xE0)%N then
        match tl with
        | y :: tl' =>
            m ← continuation y;
            let c := ((n - 0xC0) * 64 + m)%N in
            if (0x80 <=? c)%N then
              s ← utf8_decode tl'; Some (c :: s)
            else None
        | _ => None
        end
      else if (n <? 0xF0)%N then
        match tl with
        | y :: z :: tl' =>
            m ← continuation y;
            k ← continuation z;
            let c := ((n - 0xE0) * 4096 + m * 64 + k)%N in
            if (0x800 <=? c)%N && scalar c then
              s ← utf8_decode tl'; Some (c :: s)
            else None
        | _ => None
        end
      else if (n <? 0xF8)%N then
        match tl with
        | y :: z :: t :: tl' =>
            m ← continuation y;
            k ← continuation z;
            j ← continuation t;
            let c := ((n - 0xF0) * 262144 + m * 4096 + k * 64 + j)%N in
            if ((0x10000 <=? c) && (c <? 0x110000))%N then
              s ← utf8_decode tl'; Some (c :: s)
            else None
        | _ => None
        end
      else None
  end.

Definition utf_8 : codec := Codec utf8_encode utf8_decode.

(** Latin-1: the characters below 256 are their own bytes, the others
    cannot be encoded. *)
Definition latin_1 : codec :=
  Codec (λ s, if forallb (λ c, code c <? 256)%N s
              then Some (byte_of_N <$> s) else None)
        (λ b, Some (Byte.to_N <$> b)).

(** A codec whose decoder returns text of scalar values only, as the
    text encodings of Python do with [errors='strict']. *)
Definition decodes_scalars (c : codec) : Prop :=
  ∀ b s, decode c b = Some s → forallb scalar s = true.

(** Reading in text mode with the default [newline=None]: [\r\n] and a
    lone [\r] become [\n]. *)
Fixpoint universal_newlines (s : str) : str :=
  match s with
  | [] => []
  | c :: tl =>
      if eqc CR c then
        LF :: match tl with
              | d :: tl' =>
                  if eqc LF d then universal_newlines tl'
                  else universal_newlines tl
              | [] => []
              end
      else c :: universal_newlines tl
  end.

(** Iterating over a text file: the lines, each with its line feed. *)
Fixpoint file_lines (s : str) : list str :=
  match s with
  | [] => []
  | c :: tl =>
      if eqc LF c then [c] :: file_lines tl
      else match file_lines tl with
           | l :: ls => (c :: l) :: ls
           | [] => [[c]]
           end
  end.

End Codec.

Import Codec.

Module Json.

Definition hex_digit (n : N) : char :=
  if (n <? 10)%N then (48 + n)%N else (87 + n)%N.

(** [json.encoder.py_encode_basestring] (the replacement table of
    [ensure_ascii=False]): the quote, the backslash and the control
    characters below U+0020 are escaped, everything else is copied. *)
Definition escape_char (c : char) : str :=
  if eqc QUOTE c then [BACKSLASH; QUOTE]
  else if eqc BACKSLASH c then [BACKSLASH; BACKSLASH]
  else if eqc LF c then [BACKSLASH; "n"]
  else if eqc CR c then [BACKSLASH; "r"]
  else if eqc TAB c then [BACKSLASH; "t"]
  else if eqc BS c then [BACKSLASH; "b"]
  else if eqc FF c then [BACKSLASH; "f"]
  else if (code c <? 32)%N then
    [BACKSLASH; "u"; "0"; "0"; hex_digit (code c / 16); hex_digit (code c mod 16)]
  else [c].

Definition dumps_str (s : str) : str :=
  QUOTE :: flat_map escape_char s ++ [QUOTE].

(** A [dict] with [str] keys and [str] values, in insertion order. *)
Abbreviation dict := (list (str * str)).

Fixpoint dumps_members (d : dict) : str :=
  match d with
  | [] => []
  | [(k, v)] => dumps_str k ++ lit ": " ++ dumps_str v
  | (k, v) :: d' => dumps_str k ++ lit ": " ++ dumps_str v ++ lit ", " ++ dumps_members d'
  end.

(** [json.dumps(d, ensure_ascii=False)] with the default separators. *)
Definition dumps (d : dict) : str :=
  "{" :: dumps_members d ++ ["}"].

Definition hex_value (c : char) : option N :=
  let n := code c in
  if ((48 <=? n) && (n <=? 57))%N then Some (n - 48)%N
  else if ((97 <=? n) && (n <=? 102))%N then Some (n - 87)%N
  else if ((65 <=? n) && (n <=? 70))%N then Some (n - 55)%N
  else None.

(** [json.decoder.BACKSLASH]. *)
Definition unescape (e : char) : option char :=
  if eqc QUOTE e then Some QUOTE
  else if eqc BACKSLASH e then Some BACKSLASH
  else if eqc "/" e then Some "/"
  else if eqc "b" e then Some BS
  else if eqc "f" e then Some FF
  else if eqc "n" e then Some LF
  else if eqc "r" e then Some CR
  else if eqc "t" e then Some TAB
  else None.

(** [json.decoder.scanstring] with [strict=True], after the opening
    quote: the decoded string and the text after the closing quote.
    [None]: [JSONDecodeError], or a [\u] escape of a surrogate, which
    the decoder may pair with the next escape and which is not
    modelled here. *)
Fixpoint scanstring (s : str) : option (str * str) :=
  match s with
  | [] => None
  | c :: tl =>
      if eqc QUOTE c then Some ([], tl)
      else if eqc BACKSLASH c then
        match tl with
        | e :: tl' =>
            if eqc "u" e then
              match tl' with
              | h1 :: h2 :: h3 :: h4 :: tl'' =>
                  a ← hex_value h1; b ← hex_value h2;
                  c ← hex_value h3; d ← hex_value h4;
                  let u := (((a * 16 + b) * 16 + c) * 16 + d)%N in
                  if scalar u then
                    '(r, rest) ← scanstring tl'';
                    Some (u :: r, rest)
                  else None
              | _ => None
              end
            else
              x ← unescape e;
              '(r, rest) ← scanstring tl';
              Some (x :: r, rest)
        | [] => None
        end
      else if (code c <? 32)%N then None
      else '(r, rest) ← scanstring tl; Some (c :: r, rest)
  end.

(** [json.decoder.WHITESPACE]. *)
Definition is_ws (c : char) : bool :=
  eqc " " c || eqc TAB c || eqc LF c || eqc CR c.

Definition skip_ws (s : str) : str := Str.lstrip [" "; TAB; LF; CR] s.

(** A quoted string at the head of [s]. *)
Definition parse_str (s : str) : option (str * str) :=
  match s with
  | c :: tl => if eqc QUOTE c then scanstring tl else None
  | [] => None
  end.

(** [json.decoder.JSONObject] after the first key's opening position,
    for objects whose values are strings.  [n] bounds the number of
    members; every member takes at least one character. *)
Fixpoint parse_members (n : nat) (s : str) : option (dict * str) :=
  match n with
  | 0 => None
  | S n' =>
      '(k, s1) ← parse_str s;
      match skip_ws s1 with
      | c :: s2 =>
          if eqc ":" c then
            '(v, s3) ← parse_str (skip_ws s2);
            match skip_ws s3 with
            | e :: s4 =>
                if eqc "}" e then Some ([(k, v)], s4)
                else if eqc "," e then
                  '(d, s5) ← parse_members n' (skip_ws s4);
                  Some ((k, v) :: d, s5)
                else None
            | [] => None
            end
          else None
      | [] => None
      end
  end.

(** [json.loads(s)] for a document that is one object with string
    values.  [None]: [JSONDecodeError], or a document of another
    shape. *)
Definition loads (s : str) : option dict :=
  match skip_ws s with
  | c :: s1 =>
      if eqc "{" c then
        match skip_ws s1 with
        | e :: s2 =>
            '(d, rest) ← (if eqc "}" e then Some ([], s2)
                          else parse_members (length s) (skip_ws s1));
            match skip_ws rest with
            | [] => Some d
            | _ => None
            end
        | [] => None
        end
      else None
  | [] => None
  end.

(** [d['Title']]. *)
Fixpoint lookup (key : str) (d : dict) : option str :=
  match d with
  | [] => None
  | (k, v) :: d' =>
      match lookup key d' with
      | Some v' => Some v'
      | None => if bool_decide (k = key) then Some v else None
      end
  end.

End Json.


(** ** The world of the program: files, output, errors *)

Module IO.

(** What the program prints, by format string. *)
Inductive message :=
| MsgRequired
| MsgNonBeancount (files : gset str)
| MsgProcessing (files : gset str)
| MsgConverted (entries : nat)
| MsgWrote (lines : nat) (path : str)
| MsgWroteGzip (lines : nat) (path : str)
| MsgLoaded (records : nat) (path : str).

(** What the program does to its surroundings, in order. *)
Inductive event :=
| Print (m : message)
| Glob (pattern : str)
| OpenRead (path : str)
| OpenWrite (path : str).

Inductive exn :=
| FileNotFoundError (path : str)
| PermissionError (path : str)
| UnicodeError
| BadGzipFile
| JSONDecodeError
| TypeError
| UnmodelledPattern.

(** The file system (path to content), the paths that cannot be opened
    for writing, and the events so far. *)
Record world := World {
  fs : gmap str bytes;
  readonly : gset str;
  trace : list event
}.

Definition emit (e : event) (w : world) : world :=
  World (fs w) (readonly w) (trace w ++ [e]).

Definition store (path : str) (content : bytes) (w : world) : world :=
  World (<[path := content]> (fs w)) (readonly w) (trace w).

(** How a call ends: it returns, the process exits ([exit(n)]), or an
    exception propagates. *)
Inductive outcome (A : Type) :=
| Return (a : A)
| Exit (status : Z)
| Raise (e : exn).

Arguments Return {A} a.
Arguments Exit {A} status.
Arguments Raise {A} e.

Definition io (A : Type) : Type := world → outcome A * world.

Definition ret {A} (a : A) : io A := λ w, (Return a, w).

Definition bind {A B} (m : io A) (k : A → io B) : io B :=
  λ w, match m w with
       | (Return a, w') => k a w'
       | (Exit n, w') => (Exit n, w')
       | (Raise e, w') => (Raise e, w')
       end.

Definition raise {A} (e : exn) : io A := λ w, (Raise e, w).

Definition exit {A} (status : Z) : io A := λ w, (Exit status, w).

Definition print (m : message) : io unit := λ w, (Return tt, emit (Print m) w).

Definition when (b : bool) (m : io unit) : io unit := if b then m else ret tt.

(** An optional result of a pure computation, or the exception. *)
Definition lift {A} (e : exn) (o : option A) : io A :=
  match o with
  | Some a => ret a
  | None => raise e
  end.

(** [open(path, 'rb').read()] *)
Definition read_bytes (path : str) : io bytes :=
  λ w, match fs w !! path with
       | Some b => (Return b, emit (OpenRead path) w)
       | None => (Raise (FileNotFoundError path), emit (OpenRead path) w)
       end.

(** A computation that leaves the files as they are and opens none
    for writing, however it ends: the events it adds hold no
    [OpenWrite]. *)
Definition writes_nothing {A} (m : io A) : Prop :=
  ∀ w o w',
    m w = (o, w') →
    fs w' = fs w ∧ readonly w' = readonly w
    ∧ ∃ evs, trace w' = trace w ++ evs ∧ ∀ p, OpenWrite p ∉ evs.

End IO.

Import IO.

Declare Scope io_scope.
Delimit Scope io_scope with io.
Notation "'let*' x := m 'in' k" := (bind m (λ x, k))
  (at level 10, x pattern, m at level 100, k at level 200) : io_scope.
Notation "m ;; k" := (bind m (λ _, k))
  (at level 100, k at level 200, right associativity) : io_scope.

(** ** pathlib *)

Module Path.

Fixpoint after_last (sep : char) (s : str) : option str :=
  match s with
  | [] => None
  | c :: tl =>
      match after_last sep tl with
      | Some r => Some r
      | None => if eqc sep c then Some tl else None
      end
  end.

(** [PurePath.name] of a path given by its string form: the last
    component. *)
Definition name (p : str) : str := default p (after_last "/" p).

(** [PurePath.suffix]: with [i = name.rfind('.')], the text from [i] on
    when [0 < i < len(name) - 1], the empty string otherwise. *)
Definition suffix (p : str) : str :=
  let n := name p in
  match after_last "." n with
  | Some ext =>
      if bool_decide (0 < length n - length ext - 1 < length n - 1)
      then "." :: ext else []
  | None => []
  end.

End Path.


(** ** The program *)

Module Beancount.

Local Open Scope io_scope.

(** Modelled from the spec: [is_none_or_empty] of [src/utils/helpers.py]
    is not among the sources; the spec calls its positive case "absent
    or empty".  An argument is [None] (absent) or a list or string. *)
Definition is_none_or_empty {A} (item : option (list A)) : bool :=
  match item with
  | None => true
  | Some [] => true
  | Some (_ :: _) => false
  end.

(** [any(s)] for a set of strings: some member is a non-empty string. *)
Definition any (s : gset str) : bool :=
  bool_decide (∃ x, x ∈ s ∧ x ≠ []).

Definition not_beancount (f : str) : Prop :=
  Str.endswith (lit ".bean") f = false ∧ Str.endswith (lit ".beancount") f = false.

(** The loop of [convert_beancount_entries_to_jsonl]: the string
    [jsonl], to which each entry adds its JSON line. *)
Definition jsonl_of (entries : list str) : str :=
  foldl (λ jsonl entry, jsonl ++ Json.dumps [(lit "Title", entry)] ++ [LF])
    [] entries.

(** [jsonl_entries = len(jsonl_data.split('\n'))], the count that the
    writers report. *)
Definition jsonl_entries (jsonl_data : str) : nat :=
  length (Str.split_lines jsonl_data).

Section Program.

(** The constant [empty_escape_sequences] of [src/utils/constants.py],
    which is not among the sources. *)
Variable empty_escape_sequences : str.

(** [get_absolute_path] of [src/utils/helpers.py], which is not among
    the sources. *)
Variable get_absolute_path : str → str.

(** [glob.glob] on a file system. *)
Variable glob_glob : gmap str bytes → str → list str.

(** The order in which Python iterates over a set. *)
Variable set_iter : gset str → list str.

(** The encoding of text files opened without [encoding=]:
    [locale.getpreferredencoding(False)]. *)
Variable locale : codec.

(** [gzip] compression and decompression. *)
Variable gzip_compress : bytes → bytes.
Variable gzip_decompress : bytes → option bytes.

(** [open(path, 'r', encoding=enc).read()] *)
Definition read_text (enc : codec) (path : str) : io str :=
  let* b := read_bytes path in
  let* s := lift UnicodeError (decode enc b) in
  ret (universal_newlines s).

(** [open(path, 'w', encoding=enc).write(text)], where the line
    separator of the platform is the line feed. *)
Definition write_text (enc : codec) (path : str) (text : str) : io unit :=
  λ w, if bool_decide (path ∈ readonly w)
       then (Raise (PermissionError path), emit (OpenWrite path) w)
       else match encode enc text with
            | Some b => (Return tt, store path b (emit (OpenWrite path) w))
            | None => (Raise UnicodeError, store path [] (emit (OpenWrite path) w))
            end.

(** [gzip.open(path, 'wt', encoding=enc).write(text)] *)
Definition gzip_write_text (enc : codec) (path : str) (text : str) : io unit :=
  λ w, if bool_decide (path ∈ readonly w)
       then (Raise (PermissionError path), emit (OpenWrite path) w)
       else match encode enc text with
            | Some b =>
                (Return tt, store path (gzip_compress b) (emit (OpenWrite path) w))
            | None =>
                (Raise UnicodeError,
                 store path (gzip_compress []) (emit (OpenWrite path) w))
            end.

(** [gzip.open(path, 'rt', encoding=enc).read()] *)
Definition gzip_read_text (enc : codec) (path : str) : io str :=
  let* z := read_bytes path in
  let* b := lift BadGzipFile (gzip_decompress z) in
  let* s := lift UnicodeError (decode enc b) in
  ret (universal_newlines s).

(** The list comprehension of [extract_beancount_entries]: the pieces
    that match [transaction_regex], stripped. *)
Definition entries_of (pieces : list str) : list str :=
  Str.strip empty_escape_sequences
    <$> filter (λ entry, Regex.transaction_match entry = true) pieces.

Fixpoint extract_loop (beancount_files : list str) (entries : list str)
  : io (list str) :=
  match beancount_files with
  | [] => ret entries
  | beancount_file :: rest =>
      let* ledger_content := read_text locale beancount_file in
      let* cls := lift UnmodelledPattern
                    (Regex.set_members empty_escape_sequences) in
      extract_loop rest
        (entries ++ entries_of (Regex.split cls ledger_content))
  end.

(** [extract_beancount_entries]; the argument is the sequence of paths
    that iterating over [beancount_files] gives. *)
Definition extract_beancount_entries (beancount_files : list str)
  : io (list str) :=
  extract_loop beancount_files [].

Definition convert_beancount_entries_to_jsonl (entries : list str) (verbose : Z)
  : io str :=
  let jsonl := jsonl_of entries in
  when (bool_decide (0 < verbose)%Z) (print (MsgConverted (length entries)));;
  ret jsonl.

Definition dump_jsonl (jsonl_data : str) (output_path : str) (verbose : Z)
  : io unit :=
  write_text utf_8 (get_absolute_path output_path) jsonl_data;;
  when (bool_decide (0 < verbose)%Z)
    (print (MsgWrote (jsonl_entries jsonl_data) output_path)).

Definition compress_jsonl_data (jsonl_data : str) (output_path : str) (verbose : Z)
  : io unit :=
  gzip_write_text locale (get_absolute_path output_path) jsonl_data;;
  when (bool_decide (0 < verbose)%Z)
    (print (MsgWroteGzip (jsonl_entries jsonl_data) output_path)).

(** The loop of [load_jsonl] over the lines of the open file. *)
Fixpoint load_lines (lines : list str) (data : list Json.dict)
  : io (list Json.dict) :=
  match lines with
  | [] => ret data
  | line :: rest =>
      let* d := lift JSONDecodeError
                  (Json.loads (Str.strip empty_escape_sequences line)) in
      load_lines rest (data ++ [d])
  end.

Definition load_jsonl (input_path : str) (verbose : Z) : io (list Json.dict) :=
  let* jsonl_file :=
    if bool_decide (Path.suffix input_path = lit ".gz") then
      let* t := gzip_read_text utf_8 (get_absolute_path input_path) in
      ret (Some t)
    else if bool_decide (Path.suffix input_path = lit ".jsonl") then
      let* t := read_text utf_8 (get_absolute_path input_path) in
      ret (Some t)
    else ret None in
  match jsonl_file with
  | None => raise TypeError
  | Some text =>
      let* data := load_lines (file_lines text) [] in
      when (bool_decide (0 < verbose)%Z)
        (print (MsgLoaded (length data) input_path));;
      ret data
  end.

Definition get_beancount_files (beancount_files : option (list str))
    (beancount_file_filter : option str) (verbose : Z) : io (gset str) :=
  let absolute_beancount_files : gset str :=
    match beancount_files with
    | Some (f :: fs) => list_to_set (get_absolute_path <$> (f :: fs))
    | _ => ∅
    end in
  let* filtered_beancount_files :=
    match beancount_file_filter with
    | Some (c :: cs) =>
        λ w, (Return (list_to_set (glob_glob (fs w) (get_absolute_path (c :: cs)))
                        : gset str),
              emit (Glob (get_absolute_path (c :: cs))) w)
    | _ => ret ∅
    end in
  let all_beancount_files := absolute_beancount_files ∪ filtered_beancount_files in
  let files_with_non_beancount_extensions : gset str :=
    filter not_beancount all_beancount_files in
  when (any files_with_non_beancount_extensions)
    (print (MsgNonBeancount files_with_non_beancount_extensions));;
  when (bool_decide (0 < verbose)%Z) (print (MsgProcessing all_beancount_files));;
  ret all_beancount_files.

Definition beancount_to_jsonl (beancount_files : option (list str))
    (beancount_file_filter : option str) (output_file : str) (verbose : Z)
  : io (list str) :=
  when (is_none_or_empty beancount_files && is_none_or_empty beancount_file_filter)
    (print MsgRequired;; exit 1);;
  let* beancount_files :=
    get_beancount_files beancount_files beancount_file_filter verbose in
  let* entries := extract_beancount_entries (set_iter beancount_files) in
  let* jsonl_data := convert_beancount_entries_to_jsonl entries verbose in
  (if bool_decide (Path.suffix output_file = lit ".gz") then
     compress_jsonl_data jsonl_data output_file verbose
   else if bool_decide (Path.suffix output_file = lit ".jsonl") then
     dump_jsonl jsonl_data output_file verbose
   else ret tt);;
  ret entries.

End Program.

End Beancount.


(** ** The spec's description of the extractor *)

Module Spec.

(** The transaction marker in the spec's words: a literal [*] or [!]. *)
Definition marker (c : char) : bool := eqc "*" c || eqc "!" c.

(** A date token: a 4-digit year, [-], a 2-digit month, [-], a 2-digit
    day. *)
Definition date_token : list (char → bool) :=
  [ is_digit; is_digit; is_digit; is_digit; eqc "-";
    is_digit; is_digit; eqc "-"; is_digit; is_digit ].

(** The transaction-start anchor in the spec's words: the date token, a
    single space, the marker, then a space. *)
Definition anchor : list (char → bool) :=
  date_token ++ [eqc " "; marker; eqc " "].

(** The text after at most one leading line feed. *)
Definition after_newline (s : str) : str :=
  match s with
  | c :: s' => if eqc LF c then s' else s
  | [] => []
  end.

Section Segments.

(** The characters that make a line blank. *)
Variable cls : list char.

(** A line that consists entirely of blank characters. *)
Definition blank (l : str) : bool := forallb (Str.mem cls) l.

(** The runs of consecutive lines that are not blank; [cur] holds the
    lines of the run that is open. *)
Fixpoint blocks (cur : list str) (ls : list str) : list (list str) :=
  match ls with
  | [] => match cur with [] => [] | _ => [cur] end
  | l :: ls' =>
      if blank l then
        match cur with
        | [] => blocks [] ls'
        | _ => cur :: blocks [] ls'
        end
      else blocks (cur ++ [l]) ls'
  end.

(** The blank-line-separated segments of a text: the text is cut into
    lines, blank lines separate, and the lines of a segment are put
    together again with their line feeds. *)
Definition blank_line_segments (text : str) : list str :=
  Str.join_lines <$> blocks [] (Str.split_lines text).

End Segments.

(** The transaction-start pattern in the spec's words, on a segment:
    an optional leading newline, then the anchor. *)
Definition anchored (seg : str) : bool :=
  Regex.match_seq anchor (after_newline seg).

(** The entries that the spec describes for a text: the segments that
    match the transaction-start pattern, trimmed. *)
Definition segment_entries (chars cls : list char) (text : str) : list str :=
  Str.strip chars
    <$> filter (λ seg, anchored seg = true) (blank_line_segments cls text).

(** The text of a file as a read in text mode gives it, when the file
    exists and decodes. *)
Definition text_of (enc : codec) (w : world) (path : str) : option str :=
  b ← fs w !! path; s ← decode enc b; Some (universal_newlines s).

(** The number of JSON lines in a text: the line feeds, each of which
    ends a line. *)
Definition json_lines (text : str) : nat := length (file_lines text).

End Spec.

(** ** Values for what the sources leave open *)

Module Sample.

(** Modelled from the spec: the constant [empty_escape_sequences] is
    not among the sources; the spec calls its characters "boundary
    whitespace/newline characters".  This value holds the line feed, the
    carriage return, the tab and the space. *)
Definition whitespace : str := [LF; CR; TAB; " "].

(** The same four characters written as alternatives, with bars
    between them, the way the regular expressions of the source are
    written. *)
Definition alternatives : str := [LF; "|"; CR; "|"; TAB; "|"; " "].

(** A stand-in for the gzip container: a two-byte magic number in
    front of the stored data. *)
Definition stored_compress (b : bytes) : bytes :=
  Byte.x1f :: Byte.x8b :: b.

Definition stored_decompress (z : bytes) : option bytes :=
  match z with
  | Byte.x1f :: Byte.x8b :: b => Some b
  | _ => None
  end.

(** The encoded content of a text file. *)
Definition utf8 (s : str) : bytes := flat_map utf8_char s.

(** A path is already absolute. *)
Definition absolute (p : str) : str := p.

Definition ledger_path : str := lit "/ledger.beancount".

(** A world with one ledger file of the given text and nothing else. *)
Definition ledger_world (text : str) : world :=
  World {[ ledger_path := utf8 text ]} ∅ [].

(** Two transactions with a blank line between them. *)
Definition first_transaction : str :=
  lit "2020-01-01 * Lunch" ++ LF :: lit "  Expenses:Food  5 USD".

Definition second_transaction : str :=
  lit "2020-01-02 ! Rent" ++ LF :: lit "  Expenses:Home  900 USD".

Definition two_transactions : str :=
  first_transaction ++ LF :: LF :: second_transaction ++ [LF].

(** An entry with a letter outside ASCII: [Café]. *)
Definition cafe : str := ["C"; "a"; "f"; 233%N].

(** A transaction line without payee or narration. *)
Definition bare_transaction : str := lit "2020-01-01 * ".

(** A line with a bar where the marker goes. *)
Definition bar_line : str := lit "2020-01-01 | x".

(** No path matches the glob pattern. *)
Definition no_glob (_ : gmap str bytes) (_ : str) : list str := [].

End Sample.

(** ** What the loader reads *)

Module Source.

(** The text that [load_jsonl] iterates over, by the suffix of the
    path: the decompressed and decoded content of a [.gz] file, the
    decoded content of a [.jsonl] file, when the file exists and
    decodes. *)
Definition jsonl_text (get_absolute_path : str → str)
    (gzip_decompress : bytes → option bytes) (w : world) (input_path : str)
  : option str :=
  if bool_decide (Path.suffix input_path = lit ".gz") then
    z ← fs w !! get_absolute_path input_path;
    b ← gzip_decompress z;
    s ← decode utf_8 b;
    Some (universal_newlines s)
  else if bool_decide (Path.suffix input_path = lit ".jsonl") then
    Spec.text_of utf_8 w (get_absolute_path input_path)
  else None.

End Source.

(** ** What a run may change *)

Module Effects.

(** A computation that changes no file but the one at [path] and opens
    no other file for writing, however it ends. *)
Definition writes_only {A} (path : str) (m : io A) : Prop :=
  ∀ w o w',
    m w = (o, w') →
    (∀ q, q ≠ path → fs w' !! q = fs w !! q)
    ∧ readonly w' = readonly w
    ∧ ∃ evs, trace w' = trace w ++ evs ∧ ∀ q, OpenWrite q ∈ evs → q = path.

(** The messages that the program prints only when [verbose] is
    positive. *)
Definition progress (e : event) : bool :=
  match e with
  | Print (MsgProcessing _) | Print (MsgConverted _) | Print (MsgWrote _ _)
  | Print (MsgWroteGzip _ _) | Print (MsgLoaded _ _) => true
  | _ => false
  end.

(** The events that are left without those messages. *)
Definition quiet (evs : list event) : list event :=
  filter (λ e, progress e = false) evs.

(** Two worlds with the same files and, those messages apart, the same
    events. *)
Definition same_quiet (w1 w2 : world) : Prop :=
  fs w1 = fs w2 ∧ readonly w1 = readonly w2
  ∧ quiet (trace w1) = quiet (trace w2).

(** Two computations that, from such worlds, end the same way and in
    such worlds. *)
Definition alike {A} (m1 m2 : io A) : Prop :=
  ∀ w1 w2,
    same_quiet w1 w2 →
    fst (m1 w1) = fst (m2 w2) ∧ same_quiet (snd (m1 w1)) (snd (m2 w2)).

End Effects.

(** ** More values *)

Module Example.

(** Two transactions with no blank line between them. *)
Definition unseparated : str :=
  Sample.first_transaction ++ LF :: Sample.second_transaction.

(** A world with one JSON lines file of the given text. *)
Definition jsonl_world (text : str) : world :=
  World {[ lit "/out.jsonl" := Sample.utf8 text ]} ∅ [].

(** A transaction with an amount in euro: the sign is U+20AC, three
    bytes in UTF-8. *)
Definition euro_transaction : str :=
  lit "2020-01-03 * Books" ++ LF :: lit "  Expenses:Books  12 " ++ [0x20AC%N].

(** An entry with a character beyond the basic plane, U+1F600, four
    bytes in UTF-8. *)
Definition astral : str := lit "2020-01-04 * Party " ++ [0x1F600%N].

(** A ledger of two transactions, the second with the euro sign. *)
Definition euro_ledger : str :=
  Sample.first_transaction ++ LF :: LF :: euro_transaction ++ [LF].

(** A string that holds a surrogate alone, which no decoder returns
    and UTF-8 does not encode. *)
Definition lone_surrogate : str := lit "2020-01-05 * " ++ [0xD800%N].

(** A world with two ledger files of one transaction each. *)
Definition two_ledgers : world :=
  World {[ lit "/a.beancount" := Sample.utf8 Sample.first_transaction;
           lit "/b.beancount" := Sample.utf8 Sample.second_transaction ]}
    ∅ [].


End Example.

(** * Properties *)

(** ** Stripping and lines *)

Module StrFacts.

Import Str.

Lemma mem_true chars c : mem chars c = true ↔ c ∈ chars.
Proof. unfold mem. apply bool_decide_eq_true. Qed.

Lemma mem_false chars c : mem chars c = false ↔ c ∉ chars.
Proof. unfold mem. apply bool_decide_eq_false. Qed.

Lemma eqc_true a c : eqc a c = true ↔ c = a.
Proof. unfold eqc. apply bool_decide_eq_true. Qed.

Lemma eqc_false a c : eqc a c = false ↔ c ≠ a.
Proof. unfold eqc. apply bool_decide_eq_false. Qed.

Lemma eqc_refl a : eqc a a = true.
Proof. by apply eqc_true. Qed.

Lemma lstrip_app_notin chars u x v :
  x ∉ chars → lstrip chars (u ++ x :: v) = lstrip chars u ++ x :: v.
Proof.
  intros Hx. induction u as [|c u IH]; simpl.
  - by apply mem_false in Hx as ->.
  - destruct (mem chars c); [exact IH | done].
Qed.

Lemma rstrip_snoc_in chars s c :
  c ∈ chars → rstrip chars (s ++ [c]) = rstrip chars s.
Proof.
  intros Hc. unfold rstrip. rewrite reverse_snoc. simpl.
  by apply mem_true in Hc as ->.
Qed.

Lemma rstrip_app_notin chars a x b :
  x ∉ chars → rstrip chars (a ++ x :: b) = a ++ x :: rstrip chars b.
Proof.
  intros Hx. unfold rstrip.
  rewrite reverse_app, reverse_cons, <- app_assoc. simpl.
  rewrite lstrip_app_notin by done.
  by rewrite reverse_app, reverse_cons, reverse_involutive, <- app_assoc.
Qed.

Lemma lstrip_all chars s :
  Forall (λ c, c ∈ chars) s → lstrip chars s = [].
Proof.
  induction 1 as [|c s Hc _ IH]; simpl; [done|].
  by apply mem_true in Hc as ->.
Qed.

Lemma lstrip_snoc_in chars s c :
  c ∈ chars →
  lstrip chars (s ++ [c]) = [] ∧ lstrip chars s = []
  ∨ lstrip chars (s ++ [c]) = lstrip chars s ++ [c].
Proof.
  intros Hc. induction s as [|d s IH]; simpl.
  - apply mem_true in Hc as ->. by left.
  - destruct (mem chars d); [exact IH | by right].
Qed.

(** A strippable character at either end does not change the result. *)
Lemma strip_cons_in chars c s :
  c ∈ chars → strip chars (c :: s) = strip chars s.
Proof. intros Hc. unfold strip. simpl. by apply mem_true in Hc as ->. Qed.

Lemma strip_snoc_in chars s c :
  c ∈ chars → strip chars (s ++ [c]) = strip chars s.
Proof.
  intros Hc. unfold strip.
  destruct (lstrip_snoc_in chars s c Hc) as [[-> ->]| ->]; [done|].
  by apply rstrip_snoc_in.
Qed.

(** What is left of a text that starts with a character outside
    [chars] and holds a later one. *)
Lemma strip_keep chars a x y b :
  x ∉ chars → y ∉ chars →
  strip chars (x :: a ++ y :: b) = x :: a ++ y :: rstrip chars b.
Proof.
  intros Hx Hy. unfold strip. simpl. apply mem_false in Hx as ->.
  by apply (rstrip_app_notin chars (x :: a) y b).
Qed.

Lemma split_lines_nonempty s : split_lines s ≠ [].
Proof.
  destruct s as [|c s]; simpl; [done|].
  destruct (eqc LF c); [done|]. by destruct (split_lines s).
Qed.

Lemma split_lines_LF_free s : Forall (λ l, LF ∉ l) (split_lines s).
Proof.
  induction s as [|c s IH]; simpl.
  - repeat constructor. by intros ?%elem_of_nil.
  - destruct (eqc LF c) eqn:Hc.
    + constructor; [by intros ?%elem_of_nil | done].
    + apply eqc_false in Hc. destruct (split_lines s) as [|l ls].
      * repeat constructor. intros ?%list_elem_of_singleton. congruence.
      * inversion IH; subst. constructor; [|done].
        intros [?| ?]%elem_of_cons; [congruence | done].
Qed.

Lemma join_split_lines s : join_lines (split_lines s) = s.
Proof.
  induction s as [|c s IH]; simpl; [done|].
  destruct (eqc LF c) eqn:Hc.
  - apply eqc_true in Hc as ->.
    pose proof (split_lines_nonempty s).
    destruct (split_lines s); [done|]. simpl in *. by rewrite IH.
  - pose proof (split_lines_nonempty s).
    destruct (split_lines s) as [|l [|l' ls]]; [done| |]; simpl in *;
      by rewrite <- IH.
Qed.

Lemma split_lines_app s t :
  split_lines (s ++ LF :: t) = split_lines s ++ split_lines t.
Proof.
  induction s as [|c s IH]; simpl.
  - done.
  - destruct (eqc LF c); rewrite IH; [done|].
    pose proof (split_lines_nonempty s). by destruct (split_lines s).
Qed.

Lemma join_lines_cons l ls :
  ls ≠ [] → join_lines (l :: ls) = l ++ LF :: join_lines ls.
Proof. by destruct ls. Qed.

Lemma join_lines_snoc ls l :
  ls ≠ [] → join_lines (ls ++ [l]) = join_lines ls ++ LF :: l.
Proof.
  induction ls as [|a ls IH]; [done|]. intros _.
  destruct ls as [|b ls]; [done|].
  change ((a :: b :: ls) ++ [l]) with (a :: (b :: ls) ++ [l]).
  rewrite !join_lines_cons by done. rewrite IH by done.
  by rewrite <- app_assoc.
Qed.

(** *** What [strip] leaves *)

Lemma lstrip_suffix chars s : ∃ p, s = p ++ lstrip chars s.
Proof.
  induction s as [|c s [p IH]]; simpl; [by exists []|].
  destruct (mem chars c); [|by exists []].
  exists (c :: p). simpl. by f_equal.
Qed.

Lemma lstrip_head chars s c r : lstrip chars s = c :: r → c ∉ chars.
Proof.
  induction s as [|d s IH]; simpl; [done|].
  destruct (mem chars d) eqn:Hd; [done|].
  intros [= -> _]. by apply mem_false.
Qed.

Lemma rstrip_prefix chars s : ∃ t, s = rstrip chars s ++ t.
Proof.
  unfold rstrip. destruct (lstrip_suffix chars (reverse s)) as [p Hp].
  exists (reverse p).
  by rewrite <- reverse_app, <- Hp, reverse_involutive.
Qed.

Lemma rstrip_last chars s r c : rstrip chars s = r ++ [c] → c ∉ chars.
Proof.
  unfold rstrip. intros H.
  apply (f_equal reverse) in H.
  rewrite reverse_involutive, reverse_snoc in H.
  by apply lstrip_head in H.
Qed.

(** The text is the stripped text with something around it. *)
Lemma strip_infix chars s : ∃ a b, s = a ++ strip chars s ++ b.
Proof.
  unfold strip. destruct (lstrip_suffix chars s) as [a Ha].
  destruct (rstrip_prefix chars (lstrip chars s)) as [b Hb].
  exists a, b. by rewrite <- Hb.
Qed.

(** No character to strip is left at either end. *)
Lemma strip_ends chars s :
  (∀ c r, strip chars s = c :: r → c ∉ chars)
  ∧ (∀ r c, strip chars s = r ++ [c] → c ∉ chars).
Proof.
  split.
  - intros c r H. unfold strip in H.
    destruct (rstrip_prefix chars (lstrip chars s)) as [t Ht].
    rewrite H in Ht. by apply lstrip_head in Ht.
  - intros r c H. by apply rstrip_last in H.
Qed.

End StrFacts.

(** ** The regular expressions *)

Module RegexFacts.

Import Str StrFacts Regex Spec.

(** A blank line splits, and the second piece keeps its line feed; two
    blank lines leave an empty piece between; the empty text gives two
    empty pieces. *)
Example split_blank_line :
  split Sample.alternatives (lit "a" ++ [LF; LF] ++ lit "b")
  = [lit "a" ++ [LF]; LF :: lit "b"].
Proof. reflexivity. Qed.

Example split_two_blank_lines :
  split Sample.alternatives (lit "a" ++ [LF; LF; LF] ++ lit "b")
  = [lit "a" ++ [LF]; []; LF :: lit "b"].
Proof. reflexivity. Qed.

Example split_empty_text : split Sample.alternatives [] = [[]; []].
Proof. reflexivity. Qed.

(** A constant written with backslash escapes denotes, in a set, the
    line feed, the bar, the carriage return, the tab and the space. *)
Example set_members_raw :
  set_members (lit "\n|\r\t ") = Some [LF; "|"; CR; TAB; " "].
Proof. reflexivity. Qed.

Example transaction_match_bar :
  transaction_match Sample.bar_line = true.
Proof. reflexivity. Qed.

Lemma match_seq_snoc_reject pat s c :
  Forall (λ p : char → bool, p c = false) pat →
  match_seq pat (s ++ [c]) = match_seq pat s.
Proof.
  intros Hpat. revert s. induction Hpat as [|p pat Hp _ IH]; intros s.
  - by destruct s.
  - destruct s as [|d s]; simpl.
    + by rewrite Hp.
    + by rewrite IH.
Qed.

Lemma date_marker_rejects_LF :
  Forall (λ p : char → bool, p LF = false) date_marker.
Proof. repeat constructor. Qed.

Lemma transaction_match_LF s :
  transaction_match (LF :: s) = match_seq date_marker s.
Proof. unfold transaction_match. simpl. by rewrite orb_false_r. Qed.

Lemma transaction_match_not_LF c s :
  c ≠ LF → transaction_match (c :: s) = match_seq date_marker (c :: s).
Proof. intros Hc. unfold transaction_match. by apply eqc_false in Hc as ->. Qed.

Lemma transaction_match_snoc_LF c s :
  c ≠ LF → transaction_match (c :: s ++ [LF]) = transaction_match (c :: s).
Proof.
  intros Hc. rewrite !transaction_match_not_LF by done.
  apply (match_seq_snoc_reject _ (c :: s)), date_marker_rejects_LF.
Qed.

Section Blank.

Variable cls : list char.

Lemma greedy_blank_app l r :
  blank cls l = true → LF ∉ l →
  greedy cls (l ++ r) = (λ k, length l + k) <$> greedy cls r.
Proof.
  induction l as [|c l IH]; simpl; intros Hb Hl.
  - by destruct (greedy cls r).
  - apply andb_true_iff in Hb as [-> Hb].
    apply not_elem_of_cons in Hl as [Hc Hl].
    rewrite IH by done. destruct (greedy cls r); simpl; [done|].
    assert (c ≠ LF) as ->%eqc_false by congruence. done.
Qed.

Lemma greedy_nonblank l r :
  blank cls l = false → LF ∉ l → greedy cls (l ++ r) = None.
Proof.
  induction l as [|c l IH]; simpl; intros Hb Hl; [done|].
  apply not_elem_of_cons in Hl as [Hc Hl].
  assert (c ≠ LF) as ->%eqc_false by congruence.
  destruct (mem cls c); simpl in *; [|done]. by rewrite IH.
Qed.

Lemma greedy_nonempty_nonblank l r :
  blank cls l = false → LF ∉ l → greedy_nonempty cls (l ++ r) = None.
Proof.
  destruct l as [|c l]; simpl; intros Hb Hl; [done|].
  apply not_elem_of_cons in Hl as [Hc Hl].
  destruct (mem cls c); simpl in *; [|done]. by rewrite greedy_nonblank.
Qed.

Lemma attempt_nonblank adv bol l r :
  blank cls l = false → LF ∉ l → attempt cls adv bol (l ++ r) = None.
Proof.
  intros Hb Hl. unfold attempt. destruct bol, adv; try done.
  - by apply greedy_nonempty_nonblank.
  - by apply greedy_nonblank.
Qed.

(** Inside a line no attempt succeeds. *)
Lemma search_inline l r :
  LF ∉ l →
  search cls false false (l ++ r)
  = (λ '(pre, m, post), (l ++ pre, m, post)) <$> search cls false false r.
Proof.
  induction l as [|c l IH]; intros Hl.
  - simpl. destruct (search cls false false r) as [[[??]?]|]; done.
  - apply not_elem_of_cons in Hl as [Hc Hl].
    assert (c ≠ LF) as Hc'%eqc_false by congruence.
    change ((c :: l) ++ r) with (c :: (l ++ r)). simpl. rewrite Hc'.
    rewrite IH by done.
    destruct (search cls false false r) as [[[??]?]|]; done.
Qed.

Lemma bol_after_app bol a b :
  bol_after bol (a ++ b) = bol_after (bol_after bol a) b.
Proof.
  unfold bol_after. rewrite last_app. by destruct (last b).
Qed.

Lemma bol_after_line l :
  bol_after true (l ++ [LF]) = true.
Proof. unfold bol_after. by rewrite last_snoc. Qed.

(** A line that is not blank is passed over, from its start too. *)
Lemma search_nonblank_line adv l r :
  blank cls l = false → LF ∉ l →
  search cls adv true (l ++ r)
  = (λ '(pre, m, post), (l ++ pre, m, post)) <$> search cls false false r.
Proof.
  intros Hb Hl. destruct l as [|c l]; [discriminate|].
  change ((c :: l) ++ r) with (c :: (l ++ r)).
  assert (attempt cls adv true (c :: l ++ r) = None) as Ha
    by apply (attempt_nonblank adv true (c :: l) r Hb Hl).
  apply not_elem_of_cons in Hl as [Hc Hl].
  assert (c ≠ LF) as Hc'%eqc_false by congruence.
  cbn [search]. rewrite Ha, Hc'. rewrite search_inline by done.
  destruct (search cls false false r) as [[[??]?]|]; done.
Qed.

Lemma search_LF_skip adv bol r :
  attempt cls adv bol (LF :: r) = None →
  search cls adv bol (LF :: r)
  = (λ '(pre, m, post), (LF :: pre, m, post)) <$> search cls false true r.
Proof.
  intros Ha. cbn [search]. rewrite Ha, eqc_refl.
  by destruct (search cls false true r) as [[[??]?]|].
Qed.

Lemma search_match adv bol s k :
  attempt cls adv bol s = Some k →
  search cls adv bol s = Some ([], take k s, drop k s).
Proof. intros Ha. destruct s; simpl; by rewrite Ha. Qed.

(** When the search passes over [p], the pieces are those found after
    [p], with [p] in front of the first one. *)
Lemma split_loop_skip n adv adv' bol p r :
  search cls adv bol (p ++ r)
  = (λ '(pre, m, post), (p ++ pre, m, post))
      <$> search cls adv' (bol_after bol p) r →
  split_loop cls (S n) adv bol (p ++ r)
  = cont p (split_loop cls (S n) adv' (bol_after bol p) r).
Proof.
  intros Hs. cbn [split_loop]. rewrite Hs.
  destruct (search cls adv' (bol_after bol p) r) as [[[pre m] post]|]; simpl;
    [|done].
  by rewrite <- app_assoc, bol_after_app.
Qed.

Lemma cont_cont a b ps : cont a (cont b ps) = cont (a ++ b) ps.
Proof. destruct ps; simpl; [done|]. by rewrite app_assoc. Qed.

(** At the start of a line that is not blank, followed by more lines. *)
Lemma split_loop_nonblank_line n l r :
  blank cls l = false → LF ∉ l →
  split_loop cls (S n) false true (l ++ LF :: r)
  = cont (l ++ [LF]) (split_loop cls (S n) false true r).
Proof.
  intros Hb Hl.
  replace (l ++ LF :: r) with ((l ++ [LF]) ++ r) by by rewrite <- app_assoc.
  rewrite <- (bol_after_line l) at 2. apply split_loop_skip.
  rewrite <- app_assoc. simpl. rewrite search_nonblank_line by done.
  rewrite bol_after_line.
  rewrite search_LF_skip by done.
  destruct (search cls false true r) as [[[??]?]|]; simpl; [|done].
  by rewrite <- app_assoc.
Qed.

(** At the start of a last line that is not blank. *)
Lemma split_loop_nonblank_last n adv l :
  blank cls l = false → LF ∉ l →
  split_loop cls (S n) adv true l = [l].
Proof.
  intros Hb Hl. cbn [split_loop].
  rewrite <- (app_nil_r l) at 1. by rewrite search_nonblank_line.
Qed.

(** At a line feed where the attempt fails. *)
Lemma split_loop_LF_skip n adv bol r :
  attempt cls adv bol (LF :: r) = None →
  split_loop cls (S n) adv bol (LF :: r)
  = cont [LF] (split_loop cls (S n) false true r).
Proof.
  intros Ha. change (LF :: r) with ([LF] ++ r).
  change true with (bol_after bol [LF]) at 1. apply split_loop_skip.
  change ([LF] ++ r) with (LF :: r). rewrite search_LF_skip by done.
  change (bol_after bol [LF]) with true.
  by destruct (search cls false true r) as [[[??]?]|].
Qed.

(** After the whole text only empty pieces follow. *)
Lemma split_loop_nil n adv bol :
  Forall (λ p, p = []) (split_loop cls n adv bol []).
Proof.
  revert adv bol. induction n as [|n IH]; intros adv bol; simpl.
  - by repeat constructor.
  - destruct (attempt cls adv bol []) as [k|] eqn:Ha.
    + rewrite take_nil, drop_nil. constructor; [done|]. apply IH.
    + by repeat constructor.
Qed.

Lemma greedy_LF_cases r k :
  greedy cls (LF :: r) = Some k →
  k = 0 ∨ ∃ k', k = S k' ∧ greedy cls r = Some k'.
Proof.
  cbn [greedy]. rewrite eqc_refl.
  destruct (mem cls LF), (greedy cls r); intros; simplify_eq; eauto.
Qed.

Lemma greedy_LF_some r : is_Some (greedy cls (LF :: r)).
Proof.
  cbn [greedy]. rewrite eqc_refl.
  destruct (mem cls LF), (greedy cls r); eauto.
Qed.

Lemma greedy_nonempty_cases s k :
  greedy_nonempty cls s = Some k →
  ∃ c r k', s = c :: r ∧ k = S k' ∧ greedy cls r = Some k'.
Proof.
  destruct s as [|c r]; simpl; [done|].
  destruct (mem cls c); [|done].
  destruct (greedy cls r) eqn:?; intros; simplify_eq/=; eauto 10.
Qed.

(** The text of a match that starts a line: one or more whole blank
    lines. *)
Lemma greedy_span ls k :
  ls ≠ [] → Forall (λ l, LF ∉ l) ls →
  greedy cls (join_lines ls) = Some k →
  ∃ bs rest,
    ls = bs ++ rest ∧ bs ≠ [] ∧ Forall (λ l, blank cls l = true) bs
    ∧ k = length (join_lines bs)
    ∧ join_lines ls
      = join_lines bs
        ++ match rest with [] => [] | _ => LF :: join_lines rest end.
Proof.
  revert k. induction ls as [|l ls IH]; intros k Hne Hls Hg; [done|].
  inversion Hls as [|?? Hl Hls']; subst.
  destruct (blank cls l) eqn:Hb; cycle 1.
  { destruct ls as [|l' ls].
    - simpl in Hg. rewrite <- (app_nil_r l) in Hg.
      by rewrite greedy_nonblank in Hg.
    - rewrite join_lines_cons in Hg by done.
      by rewrite greedy_nonblank in Hg. }
  destruct ls as [|l' ls].
  { exists [l], []. simpl in *. rewrite <- (app_nil_r l) in Hg.
    rewrite greedy_blank_app in Hg by done. simpl in Hg.
    rewrite app_nil_r in *. repeat split; auto; simplify_eq; lia. }
  rewrite join_lines_cons in Hg |- * by done.
  rewrite greedy_blank_app in Hg by done.
  destruct (greedy cls (LF :: join_lines (l' :: ls))) as [k0|] eqn:Hk0;
    [|done].
  simpl in Hg. simplify_eq.
  apply greedy_LF_cases in Hk0 as [->|(k' & -> & Hk')].
  - exists [l], (l' :: ls). repeat split; auto; simpl; lia.
  - destruct (IH k') as (bs & rest & Hsplit & Hbs & Hblank & -> & Hjoin);
      [done..|].
    exists (l :: bs), rest. rewrite Hsplit. repeat split; auto.
    + rewrite join_lines_cons by done. rewrite length_app. simpl. lia.
    + rewrite join_lines_cons by done. rewrite <- Hsplit, Hjoin.
      by rewrite <- app_assoc.
Qed.

Lemma greedy_blank_first l ls :
  blank cls l = true → LF ∉ l → is_Some (greedy cls (join_lines (l :: ls))).
Proof.
  intros Hb Hl. destruct ls as [|l' ls].
  - simpl. rewrite <- (app_nil_r l). rewrite greedy_blank_app by done. eauto.
  - rewrite join_lines_cons by done. rewrite greedy_blank_app by done.
    destruct (greedy_LF_some (join_lines (l' :: ls))) as [k ->]. eauto.
Qed.

Lemma blocks_blank_skip bs rest :
  Forall (λ l, blank cls l = true) bs →
  blocks cls [] (bs ++ rest) = blocks cls [] rest.
Proof. induction 1 as [|b bs Hb _ IH]; simpl; [done|]. by rewrite Hb. Qed.

Lemma blocks_nonblank_app cur ls rest :
  Forall (λ l, blank cls l = false) ls →
  blocks cls cur (ls ++ rest) = blocks cls (cur ++ ls) rest.
Proof.
  intros Hls. revert cur. induction Hls as [|l ls Hl _ IH]; intros cur; simpl.
  - by rewrite app_nil_r.
  - rewrite Hl, IH. by rewrite <- app_assoc.
Qed.

Lemma unlines_snoc ls l : unlines (ls ++ [l]) = unlines ls ++ l ++ [LF].
Proof.
  unfold unlines. rewrite fmap_app, concat_app. simpl.
  by rewrite app_nil_r.
Qed.

Lemma unlines_join ls : ls ≠ [] → unlines ls = join_lines ls ++ [LF].
Proof.
  induction ls as [|l ls IH]; [done|]. intros _.
  destruct ls as [|l' ls]; [by unfold unlines; simpl; rewrite app_nil_r|].
  rewrite join_lines_cons by done.
  change (unlines (l :: l' :: ls)) with ((l ++ [LF]) ++ unlines (l' :: ls)).
  rewrite IH by done. by rewrite <- !app_assoc.
Qed.

Lemma unlines_join_snoc ls l : unlines ls ++ l = join_lines (ls ++ [l]).
Proof.
  destruct ls as [|l' ls]; [done|].
  rewrite join_lines_snoc, unlines_join by done. by rewrite <- app_assoc.
Qed.

Lemma search_decompose adv bol s pre m post :
  search cls adv bol s = Some (pre, m, post) →
  s = pre ++ m ++ post ∧ (adv = true → pre ++ m ≠ []).
Proof.
  revert adv bol pre. induction s as [|c s IH]; intros adv bol pre; simpl.
  - destruct (attempt cls adv bol []) as [k|] eqn:Ha; [|done].
    intros ?; simplify_eq. split; [by rewrite take_nil, drop_nil|].
    intros ->. unfold attempt in Ha. by destruct bol.
  - destruct (attempt cls adv bol (c :: s)) as [k|] eqn:Ha.
    + intros ?; simplify_eq. split; [by rewrite app_nil_l, take_drop|].
      intros ->. unfold attempt in Ha. destruct bol; [|done].
      by apply greedy_nonempty_cases in Ha as (?&?&?&?&->&?).
    + destruct (search cls false (eqc LF c) s) as [[[pre' m'] post']|] eqn:Hs;
        [|done].
      intros ?; simplify_eq/=. split; [|done].
      by destruct (IH _ _ _ Hs) as [<- _].
Qed.

(** Past the bound on the number of matches, [maxsplit] makes no
    difference: the loop ends because no match is left. *)
Lemma split_loop_limit n n' adv bol s :
  2 * length s + (if adv : bool then 1 else 2) ≤ n →
  2 * length s + (if adv : bool then 1 else 2) ≤ n' →
  split_loop cls n adv bol s = split_loop cls n' adv bol s.
Proof.
  revert n' adv bol s. induction n as [|n IH]; intros n' adv bol s Hn Hn'.
  { destruct adv; lia. }
  destruct n' as [|n']; [destruct adv; lia|]. simpl.
  destruct (search cls adv bol s) as [[[pre m] post]|] eqn:Hs; [|done].
  apply search_decompose in Hs as [-> Hadv]. f_equal.
  rewrite !length_app in Hn, Hn'.
  apply IH; case_bool_decide as Hm; destruct adv;
    try specialize (Hadv eq_refl); destruct pre, m; simpl in *;
    try done; lia.
Qed.

(** With [maxsplit] at or above the bound, the loop is the unbounded
    split. *)
Lemma split_unbounded n s :
  2 * length s + 2 ≤ n → split_loop cls n false true s = split cls s.
Proof. intros Hn. unfold split. by apply split_loop_limit. Qed.

(** Every piece of the split is a part of the text. *)
Lemma split_loop_infix n adv bol s p :
  p ∈ split_loop cls n adv bol s → ∃ a b, s = a ++ p ++ b.
Proof.
  revert adv bol s. induction n as [|n IH]; intros adv bol s; simpl.
  - intros ->%list_elem_of_singleton. exists [], []. by rewrite app_nil_r.
  - destruct (search cls adv bol s) as [[[pre m] post]|] eqn:Hs; cycle 1.
    { intros ->%list_elem_of_singleton. exists [], []. by rewrite app_nil_r. }
    apply search_decompose in Hs as [-> _].
    intros [->|Hin]%elem_of_cons.
    + by exists [], (m ++ post).
    + destruct (IH _ _ _ Hin) as (a & b & ->).
      exists (pre ++ m ++ a), b. by rewrite <- !app_assoc.
Qed.

Lemma split_infix s p : p ∈ split cls s → ∃ a b, s = a ++ p ++ b.
Proof. apply split_loop_infix. Qed.

End Blank.

(** *** The split against the blank-line segments *)

Section Simulation.

Variable cls : list char.
Variable ees : str.
Hypothesis ees_LF : LF ∈ ees.

Local Abbreviation entries := (Beancount.entries_of ees).
Local Abbreviation ok_line := (λ l : str, blank cls l = false ∧ LF ∉ l).

Lemma entries_of_cons p ps :
  entries (p :: ps)
  = (if transaction_match p then [strip ees p] else []) ++ entries ps.
Proof.
  unfold Beancount.entries_of. rewrite filter_cons.
  destruct (transaction_match p); by case_decide.
Qed.

Lemma entries_of_app ps qs : entries (ps ++ qs) = entries ps ++ entries qs.
Proof.
  unfold Beancount.entries_of. by rewrite filter_app, fmap_app.
Qed.

Lemma entries_of_all_nil ps : Forall (λ p, p = []) ps → entries ps = [].
Proof.
  induction 1 as [|p ps -> _ IH]; [done|]. by rewrite entries_of_cons, IH.
Qed.

Lemma join_first_char bs :
  bs ≠ [] → Forall ok_line bs →
  ∃ c r, join_lines bs = c :: r ∧ c ≠ LF.
Proof.
  intros Hne Hbs. destruct Hbs as [|b bs [Hb Hl] _]; [done|].
  destruct b as [|c b]; [discriminate|].
  apply not_elem_of_cons in Hl as [Hc _].
  destruct bs; simpl; eauto.
Qed.

(** A piece of the split and the segment inside it give the same
    entry. *)
Lemma entry_of_block o t bs :
  o = [] ∨ o = [LF] → t = [] ∨ t = [LF] →
  bs ≠ [] → Forall ok_line bs →
  entries [o ++ join_lines bs ++ t] = entries [join_lines bs].
Proof.
  intros Ho Ht Hne Hbs.
  destruct (join_first_char bs Hne Hbs) as (c & r & -> & Hc).
  rewrite !entries_of_cons.
  assert (transaction_match (o ++ (c :: r) ++ t) = transaction_match (c :: r))
    as ->.
  { destruct Ho as [->| ->], Ht as [->| ->]; simpl app;
      rewrite ?app_nil_r, ?transaction_match_LF,
        <- ?transaction_match_not_LF by done;
      rewrite ?transaction_match_snoc_LF by done; done. }
  assert (strip ees (o ++ (c :: r) ++ t) = strip ees (c :: r)) as ->; [|done].
  destruct Ho as [->| ->], Ht as [->| ->]; simpl app;
    rewrite ?app_nil_r, ?strip_cons_in by done; [done| |done|].
  - by apply (strip_snoc_in ees (c :: r)).
  - by apply (strip_snoc_in ees (c :: r)).
Qed.

Lemma entry_of_separator o : o = [] ∨ o = [LF] → entries [o] = [].
Proof. by intros [->| ->]. Qed.

(** The entry of the piece that closes the open run [cur]. *)
Lemma entry_of_closed o cur :
  o = [] ∨ o = [LF] → Forall ok_line cur →
  entries [o ++ unlines cur]
  = entries (join_lines <$> match cur with [] => [] | _ => [cur] end).
Proof.
  intros Ho Hcur. destruct cur as [|l cur].
  - rewrite app_nil_r. by apply entry_of_separator.
  - rewrite unlines_join by done. by apply entry_of_block; auto.
Qed.

Local Abbreviation at_line_start ls :=
  (∀ n o cur,
     2 * length (join_lines ls) + 2 ≤ n →
     o = [] ∨ o = [LF] → Forall ok_line cur →
     entries (cont (o ++ unlines cur)
                (split_loop cls n false true (join_lines ls)))
     = entries (join_lines <$> blocks cls cur ls)).

Local Abbreviation at_line_feed ls :=
  (∀ n adv bol,
     2 * length (LF :: join_lines ls) + (if adv : bool then 1 else 2) ≤ n →
     entries (split_loop cls n adv bol (LF :: join_lines ls))
     = entries (join_lines <$> blocks cls [] ls)).

(** After a match that starts a line. *)
Lemma after_match ls k n adv bol :
  (∀ rest, length rest < length ls → rest ≠ [] →
           Forall (λ l, LF ∉ l) rest → at_line_feed rest) →
  ls ≠ [] → Forall (λ l, LF ∉ l) ls →
  greedy cls (join_lines ls) = Some k →
  2 * length (drop k (join_lines ls)) + (if adv : bool then 1 else 2) ≤ n →
  entries (split_loop cls n adv bol (drop k (join_lines ls)))
  = entries (join_lines <$> blocks cls [] ls).
Proof.
  intros IH Hne Hls Hg Hn.
  destruct (greedy_span cls ls k Hne Hls Hg)
    as (bs & rest & -> & Hbs & Hblank & -> & Hjoin).
  rewrite Hjoin in Hn |- *. rewrite drop_app_length in Hn |- *.
  rewrite blocks_blank_skip by done.
  destruct rest as [|l rest].
  - simpl. apply entries_of_all_nil, split_loop_nil.
  - apply IH; [|done| |done].
    + rewrite length_app. destruct bs; simpl in *; [done | lia].
    + by apply Forall_app in Hls as [_ ?].
Qed.

(** At the start of a line. *)
Lemma line_start_step l ls :
  Forall (λ l, LF ∉ l) (l :: ls) →
  (ls ≠ [] → at_line_start ls) →
  (∀ rest, length rest < length (l :: ls) → rest ≠ [] →
           Forall (λ l, LF ∉ l) rest → at_line_feed rest) →
  at_line_start (l :: ls).
Proof.
  intros Hls IHA IHB n o cur Hn Ho Hcur.
  destruct n as [|n]; [lia|]. inversion Hls as [|?? Hl Hls']; subst.
  destruct (blank cls l) eqn:Hb.
  - destruct (greedy_blank_first cls l ls Hb Hl) as [k Hk].
    cbn [split_loop]. rewrite (search_match cls _ _ _ k) by done.
    cbn [cont app]. rewrite app_nil_r.
    assert (blocks cls cur (l :: ls)
            = match cur with [] => [] | _ => [cur] end
              ++ blocks cls [] (l :: ls)) as ->.
    { simpl. rewrite Hb. by destruct cur. }
    rewrite fmap_app, entries_of_app, <- (entry_of_closed o) by done.
    rewrite (entries_of_cons (o ++ unlines cur)), (entries_of_cons _ []).
    rewrite app_nil_r. f_equal.
    apply after_match; [done..|].
    rewrite length_drop. case_bool_decide as Hm; [lia|].
    destruct k; [done|]. destruct (join_lines (l :: ls)); [done|].
    simpl in *. lia.
  - destruct ls as [|l' ls].
    + simpl join_lines. rewrite split_loop_nonblank_last by done.
      simpl. rewrite Hb.
      destruct (cur ++ [l]) as [|b bs] eqn:Hcl;
        [by destruct cur|]. rewrite <- Hcl.
      rewrite <- app_assoc, unlines_join_snoc.
      rewrite <- (app_nil_r (join_lines _)) at 1. simpl.
      apply entry_of_block; auto; [by destruct cur|].
      apply Forall_app. split; [done|]. by repeat constructor.
    + rewrite join_lines_cons by done.
      rewrite split_loop_nonblank_line, cont_cont by done.
      simpl blocks. rewrite Hb.
      rewrite <- app_assoc, <- unlines_snoc.
      apply IHA; [done| |done|].
      * rewrite join_lines_cons, length_app, length_cons in Hn by done. lia.
      * apply Forall_app. split; [done|]. by repeat constructor.
Qed.

(** At the line feed that follows a match. *)
Lemma line_feed_step ls :
  ls ≠ [] → Forall (λ l, LF ∉ l) ls →
  at_line_start ls →
  (∀ rest, length rest < length ls → rest ≠ [] →
           Forall (λ l, LF ∉ l) rest → at_line_feed rest) →
  at_line_feed ls.
Proof.
  intros Hne Hls HA IHB.
  assert (∀ n adv bol,
            2 * length (join_lines ls) + 2 ≤ S n →
            attempt cls adv bol (LF :: join_lines ls) = None →
            entries (split_loop cls (S n) adv bol (LF :: join_lines ls))
            = entries (join_lines <$> blocks cls [] ls)) as Hskip.
  { intros n adv bol Hn Ha. rewrite split_loop_LF_skip by done.
    apply (HA (S n) [LF] []); auto. }
  assert (∀ n adv bol k,
            2 * length (join_lines ls) + 2 ≤ n →
            attempt cls adv bol (LF :: join_lines ls) = Some (S k) →
            greedy cls (join_lines ls) = Some k →
            entries (split_loop cls (S n) adv bol (LF :: join_lines ls))
            = entries (join_lines <$> blocks cls [] ls)) as Hlong.
  { intros n adv bol k Hn Ha Hk. cbn [split_loop].
    rewrite (search_match cls _ _ _ (S k)) by done.
    cbn [take drop app]. rewrite bool_decide_eq_false_2 by done.
    rewrite entries_of_cons. simpl.
    apply after_match; [done..|]. rewrite length_drop. lia. }
  assert (∀ n bol,
            2 * length (LF :: join_lines ls) + 1 ≤ n →
            entries (split_loop cls n true bol (LF :: join_lines ls))
            = entries (join_lines <$> blocks cls [] ls)) as Htrue.
  { intros n bol Hn. destruct n as [|n]; [lia|]. simpl in Hn.
    destruct (attempt cls true bol (LF :: join_lines ls)) as [k|] eqn:Ha;
      [|apply Hskip; [lia | done]].
    pose proof Ha as Ha'. unfold attempt in Ha'. destruct bol; [|done].
    apply greedy_nonempty_cases in Ha' as (c & r & k' & ? & -> & Hk').
    simplify_eq. apply (Hlong _ _ _ k'); [lia | done..]. }
  intros n adv bol Hn. destruct adv; [by apply Htrue|].
  destruct n as [|n]; [lia|]. simpl in Hn.
  destruct (attempt cls false bol (LF :: join_lines ls)) as [k|] eqn:Ha;
    [|apply Hskip; [lia | done]].
  pose proof Ha as Ha'. unfold attempt in Ha'. destruct bol; [|done].
  apply greedy_LF_cases in Ha' as [->|(k' & -> & Hk')].
  - cbn [split_loop]. rewrite (search_match cls _ _ _ 0) by done.
    cbn [take drop app].
    rewrite bool_decide_eq_true_2 by done.
    rewrite entries_of_cons. simpl. apply Htrue. simpl. lia.
  - apply (Hlong _ _ _ k'); [lia | done..].
Qed.

Lemma split_blocks_steps k ls :
  length ls ≤ k → ls ≠ [] → Forall (λ l, LF ∉ l) ls →
  at_line_start ls ∧ at_line_feed ls.
Proof.
  revert ls. induction k as [|k IH]; intros ls Hk Hne Hls.
  { destruct ls; [done | simpl in Hk; lia]. }
  destruct ls as [|l ls]; [done|].
  assert (∀ rest, length rest < length (l :: ls) → rest ≠ [] →
                  Forall (λ l, LF ∉ l) rest → at_line_feed rest) as IHB.
  { intros rest Hlen ??. apply IH; [simpl in *; lia | done..]. }
  assert (at_line_start (l :: ls)) as HA.
  { apply line_start_step; [done| |done].
    intros ?. apply IH; [simpl in *; lia | done |].
    by inversion Hls. }
  split; [done|]. by apply line_feed_step.
Qed.

Lemma split_loop_nonempty n adv bol s : split_loop cls n adv bol s ≠ [].
Proof.
  destruct n; simpl; [done|].
  by destruct (search cls adv bol s) as [[[??]?]|].
Qed.

(** The pieces of [re.split] and the blank-line segments of the spec
    give the same entries. *)
Lemma split_segments text :
  entries (split cls text) = entries (blank_line_segments cls text).
Proof.
  unfold split, blank_line_segments.
  pose proof (split_blocks_steps (length (split_lines text)) (split_lines text)
                (le_n _) (split_lines_nonempty text) (split_lines_LF_free text))
    as [HA _].
  specialize (HA (2 * length text + 2) [] []).
  rewrite join_split_lines in HA. rewrite <- HA by auto.
  pose proof (split_loop_nonempty (2 * length text + 2) false true text).
  by destruct (split_loop cls (2 * length text + 2) false true text).
Qed.

End Simulation.
End RegexFacts.

(** ** JSON lines *)

Module JsonFacts.

Import Str StrFacts Json Spec.

Example utf8_e_acute : utf8_char 233%N = [Byte.xc3; Byte.xa9].
Proof. reflexivity. Qed.

(** The euro sign takes three bytes, a character beyond the basic
    plane four. *)
Example utf8_euro_sign :
  utf8_encode [0x20AC%N] = Some [Byte.xe2; Byte.x82; Byte.xac]
  ∧ utf8_decode [Byte.xe2; Byte.x82; Byte.xac] = Some [0x20AC%N]
  ∧ utf8_encode [0x1F600%N] = Some [Byte.xf0; Byte.x9f; Byte.x98; Byte.x80]
  ∧ utf8_decode [Byte.xf0; Byte.x9f; Byte.x98; Byte.x80] = Some [0x1F600%N].
Proof. by vm_compute. Qed.

(** What the strict decoder refuses: a surrogate, a sequence longer
    than its code point needs, a code point beyond the last one; and
    what the encoder refuses: a surrogate. *)
Example utf8_refused :
  utf8_decode [Byte.xed; Byte.xa0; Byte.x80] = None
  ∧ utf8_decode [Byte.xc0; Byte.x80] = None
  ∧ utf8_decode [Byte.xe0; Byte.x80; Byte.x80] = None
  ∧ utf8_decode [Byte.xf4; Byte.x90; Byte.x80; Byte.x80] = None
  ∧ utf8_encode [0xD800%N] = None.
Proof. by vm_compute. Qed.

Example dumps_line_feed :
  dumps [(lit "Title", lit "a" ++ [LF] ++ lit "b")]
  = lit "{" ++ [QUOTE] ++ lit "Title" ++ [QUOTE] ++ lit ": " ++ [QUOTE]
    ++ lit "a\nb" ++ [QUOTE] ++ lit "}".
Proof. reflexivity. Qed.

Lemma to_N_byte_of_N n : (n < 256)%N → Byte.to_N (byte_of_N n) = n.
Proof.
  intros Hn. unfold byte_of_N.
  destruct (Byte.of_N n) as [b|] eqn:Hb; simpl.
  - by apply Byte.to_of_N.
  - apply Byte.of_N_None_iff in Hb. lia.
Qed.

Lemma continuation_byte r :
  (r < 64)%N → continuation (byte_of_N (0x80 + r)) = Some r.
Proof.
  intros Hr. unfold continuation. rewrite to_N_byte_of_N by lia.
  destruct (N.leb_spec 0x80 (0x80 + r)); [|lia].
  destruct (N.ltb_spec (0x80 + r) 0xC0); [|lia]. simpl. f_equal. lia.
Qed.

Lemma scalar_inv c :
  scalar c = true → (c < 0xD800 ∨ 0xDFFF < c < 0x110000)%N.
Proof.
  unfold scalar, code. intros H.
  apply orb_true_iff in H as [H|[H1 H2]%andb_true_iff];
    rewrite ?N.ltb_lt in *; lia.
Qed.

Lemma scalar_intro c :
  (c < 0xD800 ∨ 0xDFFF < c < 0x110000)%N → scalar c = true.
Proof.
  unfold scalar, code. intros H.
  apply orb_true_iff. rewrite andb_true_iff, !N.ltb_lt. lia.
Qed.

Lemma utf8_decode_cons x tl :
  utf8_decode (x :: tl)
  = let n := Byte.to_N x in
    if (n <? 0x80)%N then
      s ← utf8_decode tl; Some (n :: s)
    else if (n <? 0xC0)%N then None
    else if (n <? 0xE0)%N then
      match tl with
      | y :: tl' =>
          m ← continuation y;
          let c := ((n - 0xC0) * 64 + m)%N in
          if (0x80 <=? c)%N then
            s ← utf8_decode tl'; Some (c :: s)
          else None
      | _ => None
      end
    else if (n <? 0xF0)%N then
      match tl with
      | y :: z :: tl' =>
          m ← continuation y;
          k ← continuation z;
          let c := ((n - 0xE0) * 4096 + m * 64 + k)%N in
          if (0x800 <=? c)%N && scalar c then
            s ← utf8_decode tl'; Some (c :: s)
          else None
      | _ => None
      end
    else if (n <? 0xF8)%N then
      match tl with
      | y :: z :: t :: tl' =>
          m ← continuation y;
          k ← continuation z;
          j ← continuation t;
          let c := ((n - 0xF0) * 262144 + m * 4096 + k * 64 + j)%N in
          if ((0x10000 <=? c) && (c <? 0x110000))%N then
            s ← utf8_decode tl'; Some (c :: s)
          else None
      | _ => None
      end
    else None.
Proof. reflexivity. Qed.

(** Decide the comparisons of a goal by arithmetic. *)
Ltac compare :=
  repeat match goal with
    | |- context [(?a <? ?b)%N] =>
        destruct (N.ltb_spec a b); [try lia | try lia]
    | |- context [(?a <=? ?b)%N] =>
        destruct (N.leb_spec a b); [try lia | try lia]
    end.

Lemma utf8_decode_char c b :
  scalar c = true →
  utf8_decode (utf8_char c ++ b) = s ← utf8_decode b; Some (c :: s).
Proof.
  intros Hc. pose proof (scalar_inv c Hc) as Hrange.
  unfold utf8_char, code.
  pose proof (N.div_mod c 64 ltac:(lia)) as H64.
  pose proof (N.mod_lt c 64 ltac:(lia)) as Hr64.
  pose proof (N.div_mod (c / 64) 64 ltac:(lia)) as H4096.
  pose proof (N.mod_lt (c / 64) 64 ltac:(lia)) as Hr4096.
  pose proof (N.div_mod (c / 64 / 64) 64 ltac:(lia)) as H262144.
  pose proof (N.mod_lt (c / 64 / 64) 64 ltac:(lia)) as Hr262144.
  assert (c / 4096 = c / 64 / 64)%N as E1
    by (by rewrite N.Div0.div_div).
  assert (c / 262144 = c / 64 / 64 / 64)%N as E2
    by (by rewrite !N.Div0.div_div).
  rewrite E1, E2.
  set (q1 := (c / 64)%N) in *. set (r1 := (c mod 64)%N) in *.
  set (q2 := (q1 / 64)%N) in *. set (r2 := (q1 mod 64)%N) in *.
  set (q3 := (q2 / 64)%N) in *. set (r3 := (q2 mod 64)%N) in *.
  destruct (N.ltb_spec c 0x80) as [H1|H1];
    [|destruct (N.ltb_spec c 0x800) as [H2|H2];
      [|destruct (N.ltb_spec c 0x10000) as [H3|H3]]];
    cbn [app]; rewrite utf8_decode_cons; cbv zeta.
  - rewrite to_N_byte_of_N by lia. by compare.
  - rewrite to_N_byte_of_N by lia. compare.
    rewrite continuation_byte by lia. cbn [mbind option_bind]. compare.
    by replace ((0xC0 + q1 - 0xC0) * 64 + r1)%N with c by lia.
  - rewrite to_N_byte_of_N by lia. compare.
    rewrite !continuation_byte by lia. cbn [mbind option_bind].
    replace ((0xE0 + q2 - 0xE0) * 4096 + r2 * 64 + r1)%N with c by lia.
    rewrite Hc. by compare.
  - rewrite to_N_byte_of_N by lia. compare.
    rewrite !continuation_byte by lia. cbn [mbind option_bind].
    replace ((0xF0 + q3 - 0xF0) * 262144 + r3 * 4096 + r2 * 64 + r1)%N
      with c by lia.
    by compare.
Qed.

Lemma utf8_roundtrip s :
  forallb scalar s = true → utf8_decode (flat_map utf8_char s) = Some s.
Proof.
  induction s as [|c s IH]; [done|]. simpl.
  intros [Hc Hs]%andb_true_iff.
  by rewrite utf8_decode_char, IH.
Qed.

(** The strict encoder, followed by the strict decoder. *)
Lemma utf8_encode_decode s b :
  utf8_encode s = Some b → utf8_decode b = Some s.
Proof.
  unfold utf8_encode. destruct (forallb scalar s) eqn:Hs; [|done].
  intros [= <-]. by apply utf8_roundtrip.
Qed.


(** What the decoder returns is made of scalar values. *)
Lemma utf8_decode_scalar b s :
  utf8_decode b = Some s → forallb scalar s = true.
Proof.
  remember (length b) as n eqn:Hn. revert b s Hn.
  induction n as [n IH] using lt_wf_ind. intros b s -> Hdec.
  destruct b as [|x tl]; [by injection Hdec as <-|].
  rewrite utf8_decode_cons in Hdec. cbv zeta in Hdec.
  pose proof (Byte.to_N_bounded x) as Hx.
  destruct (N.ltb_spec (Byte.to_N x) 0x80) as [H1|H1].
  { destruct (utf8_decode tl) as [s'|] eqn:Htl; [|done].
    injection Hdec as <-. simpl.
    rewrite (IH (length tl) ltac:(simpl; lia) tl s' eq_refl Htl).
    rewrite andb_true_r. apply scalar_intro. lia. }
  destruct (N.ltb_spec (Byte.to_N x) 0xC0) as [H2|H2]; [done|].
  destruct (N.ltb_spec (Byte.to_N x) 0xE0) as [H3|H3].
  { destruct tl as [|y tl']; [done|].
    unfold continuation in Hdec. pose proof (Byte.to_N_bounded y).
    destruct ((0x80 <=? Byte.to_N y) && (Byte.to_N y <? 0xC0))%N eqn:Hy;
      [|done].
    apply andb_true_iff in Hy as [Hy1%N.leb_le Hy2%N.ltb_lt].
    cbn [mbind option_bind] in Hdec.
    destruct (_ <=? _)%N in Hdec; [|done].
    destruct (utf8_decode tl') as [s'|] eqn:Htl; [|done].
    injection Hdec as <-. simpl.
    rewrite (IH (length tl') ltac:(simpl; lia) tl' s' eq_refl Htl).
    rewrite andb_true_r. apply scalar_intro. lia. }
  destruct (N.ltb_spec (Byte.to_N x) 0xF0) as [H4|H4].
  { destruct tl as [|y [|z tl']]; [done..|].
    destruct (continuation y) as [m|]; [|done].
    destruct (continuation z) as [k|]; [|done].
    cbn [mbind option_bind] in Hdec.
    destruct (_ && _) eqn:Hc in Hdec; [|done].
    apply andb_true_iff in Hc as [_ Hc].
    destruct (utf8_decode tl') as [s'|] eqn:Htl; [|done].
    injection Hdec as <-. simpl.
    by rewrite Hc, (IH (length tl') ltac:(simpl; lia) tl' s' eq_refl Htl). }
  destruct (N.ltb_spec (Byte.to_N x) 0xF8) as [H5|H5]; [|done].
  destruct tl as [|y [|z [|t tl']]]; [done..|].
  destruct (continuation y) as [m|]; [|done].
  destruct (continuation z) as [k|]; [|done].
  destruct (continuation t) as [j|]; [|done].
  cbn [mbind option_bind] in Hdec.
  destruct (_ && _)%N eqn:Hc in Hdec; [|done].
  apply andb_true_iff in Hc as [Hc1%N.leb_le Hc2%N.ltb_lt].
  destruct (utf8_decode tl') as [s'|] eqn:Htl; [|done].
  injection Hdec as <-. simpl.
  rewrite (IH (length tl') ltac:(simpl; lia) tl' s' eq_refl Htl).
  rewrite andb_true_r. apply scalar_intro. lia.
Qed.


Lemma hex_value_digit n : (n < 16)%N → hex_value (hex_digit n) = Some n.
Proof.
  intros Hn. unfold hex_value, hex_digit, code.
  destruct (N.ltb_spec n 10).
  - destruct (N.leb_spec 48 (48 + n)); [|lia].
    destruct (N.leb_spec (48 + n) 57); [|lia]. simpl. f_equal. lia.
  - destruct (N.leb_spec (87 + n) 57); [lia|]. rewrite andb_false_r.
    destruct (N.leb_spec 97 (87 + n)); [|lia].
    destruct (N.leb_spec (87 + n) 102); [|lia]. simpl. f_equal. lia.
Qed.

Lemma hex_digit_plain n : (48 ≤ hex_digit n)%N.
Proof. unfold hex_digit. destruct (n <? 10)%N; lia. Qed.

(** The cases of [escape_char]. *)
Lemma escape_char_cases c :
  (c = QUOTE ∧ escape_char c = [BACKSLASH; QUOTE])
  ∨ (c = BACKSLASH ∧ escape_char c = [BACKSLASH; BACKSLASH])
  ∨ (c = LF ∧ escape_char c = [BACKSLASH; "n"])
  ∨ (c = CR ∧ escape_char c = [BACKSLASH; "r"])
  ∨ (c = TAB ∧ escape_char c = [BACKSLASH; "t"])
  ∨ (c = BS ∧ escape_char c = [BACKSLASH; "b"])
  ∨ (c = FF ∧ escape_char c = [BACKSLASH; "f"])
  ∨ ((c < 32)%N
     ∧ escape_char c
       = [BACKSLASH; "u"; "0"; "0"; hex_digit (c / 16); hex_digit (c mod 16)])
  ∨ ((32 ≤ c)%N ∧ c ≠ QUOTE ∧ c ≠ BACKSLASH ∧ escape_char c = [c]).
Proof.
  unfold escape_char, code.
  destruct (eqc QUOTE c) eqn:E1; [apply eqc_true in E1; auto 10|].
  destruct (eqc BACKSLASH c) eqn:E2; [apply eqc_true in E2; auto 10|].
  destruct (eqc LF c) eqn:E3; [apply eqc_true in E3; auto 10|].
  destruct (eqc CR c) eqn:E4; [apply eqc_true in E4; auto 10|].
  destruct (eqc TAB c) eqn:E5; [apply eqc_true in E5; auto 10|].
  destruct (eqc BS c) eqn:E6; [apply eqc_true in E6; auto 10|].
  destruct (eqc FF c) eqn:E7; [apply eqc_true in E7; auto 10|].
  destruct (N.ltb_spec c 32); [auto 10|].
  do 8 right. split; [done|]. split; [|split; [|done]].
  - intros ->. by rewrite eqc_refl in E1.
  - intros ->. by rewrite eqc_refl in E2.
Qed.

Lemma scanstring_escape c s :
  scanstring (escape_char c ++ s)
  = '(r, rest) ← scanstring s; Some (c :: r, rest).
Proof.
  destruct (escape_char_cases c)
    as [[-> ->]|[[-> ->]|[[-> ->]|[[-> ->]|[[-> ->]|[[-> ->]|[[-> ->]
         |[[Hc ->]|(Hc & Hq & Hb & ->)]]]]]]]]; try reflexivity.
  - cbn [app scanstring].
    change (eqc QUOTE BACKSLASH) with false.
    change (eqc BACKSLASH BACKSLASH) with true.
    change (eqc "u" "u") with true. cbv iota.
    change (hex_value "0") with (Some 0%N).
    pose proof (N.div_mod c 16 ltac:(lia)) as Hdiv.
    pose proof (N.mod_lt c 16 ltac:(lia)) as Hmod.
    set (q := (c / 16)%N) in *. set (r := (c mod 16)%N) in *.
    rewrite !hex_value_digit by lia. cbn [mbind option_bind]. cbv zeta.
    replace (((0 * 16 + 0) * 16 + q) * 16 + r)%N with c by lia.
    assert (scalar c = true) as -> by (apply scalar_intro; lia). done.
  - cbn [app scanstring].
    apply eqc_false in Hq as ->. apply eqc_false in Hb as ->.
    unfold code. by destruct (N.ltb_spec c 32); [lia|].
Qed.

Lemma scanstring_dumps s rest :
  scanstring (flat_map escape_char s ++ QUOTE :: rest) = Some (s, rest).
Proof.
  induction s as [|c s IH]; [done|]. simpl.
  by rewrite <- app_assoc, scanstring_escape, IH.
Qed.

Lemma parse_str_dumps s rest :
  parse_str (dumps_str s ++ rest) = Some (s, rest).
Proof.
  unfold dumps_str, parse_str. cbn [app]. rewrite eqc_refl.
  rewrite <- app_assoc. apply scanstring_dumps.
Qed.

Lemma escape_char_plain c :
  Forall (λ x, x ≠ LF ∧ x ≠ CR) (escape_char c).
Proof.
  destruct (escape_char_cases c)
    as [[-> ->]|[[-> ->]|[[-> ->]|[[-> ->]|[[-> ->]|[[-> ->]|[[-> ->]
         |[[Hc ->]|(Hc & Hq & Hb & ->)]]]]]]]]; try by repeat constructor.
  - pose proof (hex_digit_plain (c / 16)).
    pose proof (hex_digit_plain (c mod 16)).
    repeat constructor; try done; unfold LF, CR; lia.
  - repeat constructor; unfold LF, CR; lia.
Qed.

Lemma dumps_str_plain s : Forall (λ x, x ≠ LF ∧ x ≠ CR) (dumps_str s).
Proof.
  unfold dumps_str. constructor; [done|]. apply Forall_app. split.
  - induction s as [|c s IH]; simpl; [done|].
    apply Forall_app. split; [apply escape_char_plain | done].
  - by repeat constructor.
Qed.

(** A JSON line of the emitter holds no line break. *)
Lemma dumps_title_plain e :
  Forall (λ x, x ≠ LF ∧ x ≠ CR) (dumps [(lit "Title", e)]).
Proof.
  unfold dumps, dumps_members. constructor; [done|].
  rewrite !Forall_app. repeat split; try by repeat constructor.
  apply dumps_str_plain.
Qed.

Lemma skip_ws_cons c s : is_ws c = false → skip_ws (c :: s) = c :: s.
Proof.
  intros Hc. unfold skip_ws. cbn [lstrip].
  assert (mem [" "; TAB; LF; CR] c = false) as ->; [|done].
  apply mem_false. intros Hin.
  repeat (apply elem_of_cons in Hin as [->|Hin]; [done|]).
  by apply elem_of_nil in Hin.
Qed.

Lemma skip_ws_all ws : Forall (λ c, is_ws c = true) ws → skip_ws ws = [].
Proof.
  intros Hws. apply lstrip_all. eapply Forall_impl; [done|].
  intros c Hc. unfold is_ws in Hc.
  repeat (apply orb_true_iff in Hc as [Hc|Hc]);
    apply eqc_true in Hc as ->; repeat constructor.
Qed.

Lemma skip_ws_dumps_str s rest :
  skip_ws (dumps_str s ++ rest) = dumps_str s ++ rest.
Proof. by apply skip_ws_cons. Qed.

Lemma loads_dumps_title e ws :
  Forall (λ c, is_ws c = true) ws →
  loads (dumps [(lit "Title", e)] ++ ws) = Some [(lit "Title", e)].
Proof.
  intros Hws. unfold loads, dumps, dumps_members.
  cbn [app]. rewrite skip_ws_cons by done. rewrite eqc_refl.
  rewrite <- !app_assoc. rewrite skip_ws_dumps_str.
  change (dumps_str (lit "Title") ++ ?r) with (QUOTE :: (flat_map escape_char (lit "Title") ++ [QUOTE]) ++ r) at 1.
  cbv beta iota.
  change (eqc "}" QUOTE) with false. cbv iota.
  cbn [length parse_members].
  rewrite parse_str_dumps. cbn [mbind option_bind].
  change (lit ": " ++ ?r) with (":" :: " " :: r).
  rewrite skip_ws_cons by done. rewrite eqc_refl.
  change (skip_ws (" " :: ?r)) with (skip_ws r).
  rewrite skip_ws_dumps_str, parse_str_dumps. cbn [mbind option_bind app].
  rewrite skip_ws_cons by done. rewrite eqc_refl.
  cbn [mbind option_bind]. by rewrite skip_ws_all.
Qed.

End JsonFacts.

Module EmitterFacts.

Import Str StrFacts Json JsonFacts Spec Beancount.

Lemma jsonl_loop acc entries :
  foldl (λ jsonl entry, jsonl ++ dumps [(lit "Title", entry)] ++ [LF])
    acc entries
  = acc ++ concat ((λ e, dumps [(lit "Title", e)] ++ [LF]) <$> entries).
Proof.
  revert acc. induction entries as [|e entries IH]; intros acc.
  - simpl. by rewrite app_nil_r.
  - cbn [foldl fmap list_fmap concat]. by rewrite IH, <- !app_assoc.
Qed.

Lemma jsonl_of_concat entries :
  jsonl_of entries
  = concat ((λ e, dumps [(lit "Title", e)] ++ [LF]) <$> entries).
Proof. unfold jsonl_of. by rewrite jsonl_loop. Qed.

Lemma jsonl_of_cons e entries :
  jsonl_of (e :: entries)
  = dumps [(lit "Title", e)] ++ LF :: jsonl_of entries.
Proof. rewrite !jsonl_of_concat. simpl. by rewrite <- app_assoc. Qed.

Lemma split_lines_plain s t :
  Forall (λ x, x ≠ LF ∧ x ≠ CR) s →
  split_lines (s ++ LF :: t) = s :: split_lines t.
Proof.
  induction 1 as [|c s [Hc _] _ IH]; [done|]. simpl.
  apply eqc_false in Hc as ->. by rewrite IH.
Qed.

Lemma file_lines_plain s t :
  Forall (λ x, x ≠ LF ∧ x ≠ CR) s →
  file_lines (s ++ LF :: t) = (s ++ [LF]) :: file_lines t.
Proof.
  induction 1 as [|c s [Hc _] _ IH]; [done|]. simpl.
  apply eqc_false in Hc as ->. by rewrite IH.
Qed.

Lemma universal_newlines_plain s t :
  Forall (λ x, x ≠ LF ∧ x ≠ CR) s →
  universal_newlines (s ++ LF :: t) = s ++ LF :: universal_newlines t.
Proof.
  induction 1 as [|c s [_ Hc] _ IH]; [done|]. simpl.
  apply eqc_false in Hc as ->. by rewrite IH.
Qed.

(** The writers report one line more than there are entries. *)
Lemma jsonl_entries_count entries :
  jsonl_entries (jsonl_of entries) = S (length entries).
Proof.
  unfold jsonl_entries. induction entries as [|e entries IH]; [done|].
  rewrite jsonl_of_cons, split_lines_plain by apply dumps_title_plain.
  simpl. by rewrite IH.
Qed.

Lemma file_lines_jsonl entries :
  file_lines (jsonl_of entries)
  = (λ e, dumps [(lit "Title", e)] ++ [LF]) <$> entries.
Proof.
  induction entries as [|e entries IH]; [done|].
  rewrite jsonl_of_cons, file_lines_plain by apply dumps_title_plain.
  simpl. by rewrite IH.
Qed.

Lemma json_lines_count entries :
  json_lines (jsonl_of entries) = length entries.
Proof.
  unfold json_lines. by rewrite file_lines_jsonl, length_fmap.
Qed.

Lemma universal_newlines_jsonl entries :
  universal_newlines (jsonl_of entries) = jsonl_of entries.
Proof.
  induction entries as [|e entries IH]; [done|].
  rewrite jsonl_of_cons, universal_newlines_plain by apply dumps_title_plain.
  by rewrite IH.
Qed.

(** What [line.strip(empty_escape_sequences)] leaves of a JSON line
    when the braces are not stripped: the object, and the line feed
    unless it is stripped too. *)
Lemma strip_json_line ees e :
  "{" ∉ ees → "}" ∉ ees →
  ∃ ws, Forall (λ c, is_ws c = true) ws
        ∧ strip ees (dumps [(lit "Title", e)] ++ [LF])
          = dumps [(lit "Title", e)] ++ ws.
Proof.
  intros Hopen Hclose. unfold dumps.
  change (("{" :: ?m ++ ["}"]) ++ [LF]) with ("{" :: (m ++ ["}"]) ++ [LF]).
  rewrite <- app_assoc. cbn [app].
  pose proof (strip_keep ees (dumps_members [(lit "Title", e)]) "{" "}" [LF]
                Hopen Hclose) as ->.
  destruct (decide (LF ∈ ees)) as [Hin|Hout].
  - exists []. split; [done|].
    change [LF] with ([] ++ [LF]).
    rewrite (rstrip_snoc_in ees [] LF Hin). by rewrite app_nil_r.
  - exists [LF]. split; [by repeat constructor|].
    change (rstrip ees [LF]) with (rstrip ees ([] ++ LF :: [])).
    rewrite (rstrip_app_notin ees [] LF [] Hout).
    by rewrite <- app_assoc.
Qed.

End EmitterFacts.

(** ** The entry extractor *)

Module ExtractorFacts.

Import Str StrFacts Regex RegexFacts Spec Beancount.


Lemma match_seq_impl pat pat' s :
  Forall2 (λ p q : char → bool, ∀ c, p c = true → q c = true) pat pat' →
  match_seq pat s = true → match_seq pat' s = true.
Proof.
  intros Hpat. revert s. induction Hpat as [|p q pat pat' Hpq _ IH]; [done|].
  intros [|c s]; simpl; [done|].
  intros [??]%andb_true_iff. apply andb_true_iff. auto.
Qed.

Lemma marker_in_set c : marker c = true → marker_set c = true.
Proof.
  unfold marker, marker_set.
  intros [->| ->]%orb_true_iff; [done|]. by rewrite orb_true_r.
Qed.

Lemma anchor_date_marker s :
  match_seq anchor s = true → match_seq date_marker s = true.
Proof.
  apply match_seq_impl. unfold anchor, date_token, date_marker. simpl.
  repeat (constructor; [by auto using marker_in_set|]). constructor.
Qed.


Lemma anchored_transaction_match seg :
  anchored seg = true → transaction_match seg = true.
Proof.
  unfold anchored, after_newline. destruct seg as [|c s]; [done|].
  destruct (eqc LF c) eqn:Hc.
  - apply eqc_true in Hc as ->. intros H%anchor_date_marker.
    by rewrite transaction_match_LF.
  - apply eqc_false in Hc. intros H%anchor_date_marker.
    by rewrite transaction_match_not_LF.
Qed.

Lemma anchor_transaction_match t :
  match_seq anchor t = true → transaction_match t = true.
Proof.
  intros H. pose proof (anchor_date_marker t H) as Hd.
  destruct t as [|c t]; [done|].
  rewrite transaction_match_not_LF; [done|]. by intros ->.
Qed.



Section Loop.

Variable ees : str.
Variable locale : codec.

Lemma read_text_some enc path w t :
  text_of enc w path = Some t →
  read_text enc path w = (Return t, emit (OpenRead path) w).
Proof.
  unfold text_of, read_text, bind, read_bytes, lift, ret.
  destruct (fs w !! path) as [b|]; simpl; [|done].
  destruct (decode enc b); simpl; [|done]. by intros [= ->].
Qed.

Lemma read_text_return enc path w t w' :
  read_text enc path w = (Return t, w') →
  text_of enc w path = Some t ∧ w' = emit (OpenRead path) w.
Proof.
  unfold text_of, read_text, bind, read_bytes, lift, ret, raise.
  destruct (fs w !! path) as [b|]; simpl; [|done].
  destruct (decode enc b); simpl; [|done]. by intros [= -> ->].
Qed.

(** Where the entries of a successful extraction come from. *)
Lemma extract_loop_return files acc w entries w' :
  extract_loop ees locale files acc w = (Return entries, w') →
  ∃ news,
    entries = acc ++ news
    ∧ ∀ e, e ∈ news →
        ∃ f text cls seg,
          f ∈ files ∧ text_of locale w f = Some text
          ∧ set_members ees = Some cls
          ∧ seg ∈ split cls text
          ∧ transaction_match seg = true
          ∧ e = strip ees seg.
Proof.
  revert acc w. induction files as [|f files IH]; intros acc w; simpl.
  - intros [= <- <-]. exists []. split; [by rewrite app_nil_r|].
    by intros ? ?%elem_of_nil.
  - unfold bind at 1.
    destruct (read_text locale f w) as [[t| |] w1] eqn:Hread; [|done..].
    apply read_text_return in Hread as [Ht ->].
    unfold bind at 1, lift.
    destruct (set_members ees) as [cls|] eqn:Hcls; [|done]. simpl.
    intros (news & -> & Hnews)%IH.
    exists (entries_of ees (split cls t) ++ news).
    split; [by rewrite app_assoc|].
    intros e [He|He]%elem_of_app.
    + unfold entries_of in He.
      apply list_elem_of_fmap in He as (seg & -> & [Hm Hseg]%list_elem_of_filter).
      exists f, t, cls, seg. repeat split; auto. by left.
    + destruct (Hnews e He) as (f' & t' & cls' & seg & ? & ? & ? & ? & ? & ?).
      exists f', t', cls', seg. repeat split; auto. by right.
Qed.

(** The extraction of readable files. *)
Lemma extract_loop_ok cls files acc w :
  set_members ees = Some cls →
  Forall (λ f, is_Some (text_of locale w f)) files →
  extract_loop ees locale files acc w
  = (Return
       (acc ++ concat ((λ f, entries_of ees
                               (split cls (default [] (text_of locale w f))))
                         <$> files)),
     World (fs w) (readonly w) (trace w ++ (OpenRead <$> files))).
Proof.
  intros Hcls Hfiles. revert acc w Hfiles.
  induction files as [|f files IH]; intros acc w Hfiles; simpl.
  - rewrite !app_nil_r. by destruct w.
  - inversion Hfiles as [|?? [t Ht] Hrest]; subst.
    unfold bind at 1. rewrite (read_text_some _ _ _ t Ht).
    unfold bind at 1, lift. rewrite Hcls. simpl.
    rewrite IH by done. simpl. rewrite Ht. simpl.
    by rewrite <- !app_assoc.
Qed.

End Loop.

Lemma split_lines_line b : LF ∉ b → split_lines b = [b].
Proof.
  induction b as [|c b IH]; [done|]. intros [Hc Hb]%not_elem_of_cons. simpl.
  assert (c ≠ LF) as ->%eqc_false by congruence. by rewrite IH.
Qed.

Lemma blocks_nonblank cls ls :
  ls ≠ [] → Forall (λ l, blank cls l = false) ls → blocks cls [] ls = [ls].
Proof.
  intros Hne Hls. rewrite <- (app_nil_r ls) at 1.
  rewrite blocks_nonblank_app by done. by destruct ls.
Qed.

(** The segments of two blocks of lines with a blank line between. *)
Lemma segments_of_two cls t1 b t2 :
  blank cls b = true → LF ∉ b →
  Forall (λ l, blank cls l = false) (split_lines t1) →
  Forall (λ l, blank cls l = false) (split_lines t2) →
  blank_line_segments cls (t1 ++ LF :: b ++ LF :: t2) = [t1; t2].
Proof.
  intros Hb Hlf H1 H2. unfold blank_line_segments.
  rewrite !split_lines_app, (split_lines_line b) by done.
  rewrite blocks_nonblank_app by done. simpl. rewrite Hb.
  pose proof (split_lines_nonempty t1).
  destruct (split_lines t1) as [|l1 ls1] eqn:E1; [done|]. rewrite <- E1.
  rewrite blocks_nonblank by auto using split_lines_nonempty.
  simpl. by rewrite !join_split_lines.
Qed.

Section Claims.

Variable ees : str.
Variable locale : codec.


(** The entries of the code and of the spec agree on pieces where the
    two patterns agree. *)
Lemma entries_of_anchored segs :
  Forall (λ seg, transaction_match seg = true → anchored seg = true) segs →
  entries_of ees segs = strip ees <$> filter (λ seg, anchored seg = true) segs.
Proof.
  unfold entries_of. induction 1 as [|seg segs Hseg _ IH]; [done|].
  rewrite !filter_cons.
  destruct (transaction_match seg) eqn:Hm.
  - rewrite decide_True, (decide_True (P := anchored seg = true)) by auto.
    by rewrite !fmap_cons, IH.
  - rewrite decide_False by done.
    rewrite (decide_False (P := anchored seg = true)); [done|].
    intros Ha%anchored_transaction_match. congruence.
Qed.

(** The extractor against the spec's description.  For readable files
    and when no segment has another character than [*] or [!] in the
    marker position of the pattern, the entry extractor returns, file
    by file and in order, the blank-line-separated segments of the text
    that match the transaction-start pattern, each trimmed.  A text of
    two transactions with a blank line between them gives the two
    transactions, trimmed, and an empty file gives no entry. *)
Theorem extractor_returns_segments cls :
  set_members ees = Some cls → LF ∈ ees →
  (∀ files w,
     Forall (λ f, is_Some (text_of locale w f)) files →
     Forall (λ f, Forall (λ seg, transaction_match seg = true
                                 → anchored seg = true)
                    (blank_line_segments cls
                       (default [] (text_of locale w f)))) files →
     extract_beancount_entries ees locale files w
     = (Return (concat ((λ f, segment_entries ees cls
                                (default [] (text_of locale w f)))
                          <$> files)),
        World (fs w) (readonly w) (trace w ++ (OpenRead <$> files))))
  ∧ (∀ f w t1 b t2,
       text_of locale w f = Some (t1 ++ LF :: b ++ LF :: t2) →
       blank cls b = true → LF ∉ b →
       match_seq anchor t1 = true → match_seq anchor t2 = true →
       Forall (λ l, blank cls l = false) (split_lines t1) →
       Forall (λ l, blank cls l = false) (split_lines t2) →
       fst (extract_beancount_entries ees locale [f] w)
       = Return [strip ees t1; strip ees t2])
  ∧ (∀ f w,
       text_of locale w f = Some [] →
       fst (extract_beancount_entries ees locale [f] w) = Return []).
Proof.
  intros Hcls HLF.
  assert (∀ files w,
            Forall (λ f, is_Some (text_of locale w f)) files →
            extract_beancount_entries ees locale files w
            = (Return (concat ((λ f, entries_of ees
                                       (blank_line_segments cls
                                          (default [] (text_of locale w f))))
                                 <$> files)),
               World (fs w) (readonly w) (trace w ++ (OpenRead <$> files))))
    as Hall.
  { intros files w Hfiles. unfold extract_beancount_entries.
    rewrite (extract_loop_ok ees locale cls) by done. simpl.
    do 3 f_equal. apply list_fmap_ext. intros _ f _.
    by apply split_segments. }
  split; [|split].
  - intros files w Hfiles Hsegs. rewrite Hall by done. do 3 f_equal.
    apply Forall_fmap_ext_1. eapply Forall_impl; [exact Hsegs|].
    intros f Hf. by apply entries_of_anchored.
  - intros f w t1 b t2 Ht Hb Hlf Ha1 Ha2 H1 H2.
    rewrite Hall by (repeat constructor; by rewrite Ht).
    simpl. rewrite Ht. simpl. rewrite app_nil_r.
    rewrite segments_of_two by done. unfold entries_of.
    rewrite !filter_cons, filter_nil.
    rewrite !decide_True by by apply anchor_transaction_match. done.
  - intros f w Ht.
    rewrite Hall by (repeat constructor; by rewrite Ht).
    simpl. by rewrite Ht.
Qed.

End Claims.


(** An instance of the extractor against the spec's description, with
    whitespace as the characters to strip. *)
Lemma extractor_returns_segments_witness :
  (∀ files w,
     Forall (λ f, is_Some (text_of utf_8 w f)) files →
     Forall (λ f, Forall (λ seg, transaction_match seg = true
                                 → anchored seg = true)
                    (blank_line_segments Sample.whitespace
                       (default [] (text_of utf_8 w f)))) files →
     extract_beancount_entries Sample.whitespace utf_8 files w
     = (Return (concat ((λ f, segment_entries Sample.whitespace
                                Sample.whitespace
                                (default [] (text_of utf_8 w f)))
                          <$> files)),
        World (fs w) (readonly w) (trace w ++ (OpenRead <$> files))))
  ∧ (∀ f w t1 b t2,
       text_of utf_8 w f = Some (t1 ++ LF :: b ++ LF :: t2) →
       blank Sample.whitespace b = true → LF ∉ b →
       match_seq anchor t1 = true → match_seq anchor t2 = true →
       Forall (λ l, blank Sample.whitespace l = false) (split_lines t1) →
       Forall (λ l, blank Sample.whitespace l = false) (split_lines t2) →
       fst (extract_beancount_entries Sample.whitespace utf_8 [f] w)
       = Return [strip Sample.whitespace t1; strip Sample.whitespace t2])
  ∧ (∀ f w,
       text_of utf_8 w f = Some [] →
       fst (extract_beancount_entries Sample.whitespace utf_8 [f] w)
       = Return []).
Proof.
  apply (extractor_returns_segments Sample.whitespace utf_8 Sample.whitespace).
  - reflexivity.
  - by left.
Defined.

(** The two transactions of the sample ledger, extracted. *)
Lemma two_transactions_extracted :
  fst (extract_beancount_entries Sample.whitespace utf_8 [Sample.ledger_path]
         (Sample.ledger_world Sample.two_transactions))
  = Return [Sample.first_transaction; Sample.second_transaction]
  ∧ fst (extract_beancount_entries Sample.alternatives utf_8
           [Sample.ledger_path]
           (Sample.ledger_world Sample.two_transactions))
    = Return [Sample.first_transaction; Sample.second_transaction].
Proof. by vm_compute. Qed.

(** The pattern accepts no marker outside its set: a line with a
    letter where the marker goes gives no entry.  And the digits of the
    date are those of [\d]: a date written in Arabic-Indic digits
    gives an entry. *)
Lemma marker_outside_set_rejected :
  fst (extract_beancount_entries Sample.whitespace utf_8 [Sample.ledger_path]
         (Sample.ledger_world (lit "2020-01-01 P x")))
  = Return []
  ∧ transaction_match
      ([0x662; 0x660; 0x662; 0x660; 45; 0x660; 0x661; 45; 0x660; 0x661]%N
         ++ lit " * x")
    = true.
Proof. by vm_compute. Qed.

(** When the marker is among the characters that are trimmed, the
    entry of a transaction line without payee is the date token
    alone. *)
Lemma trimmed_marker_leaves_date :
  fst (extract_beancount_entries (Sample.whitespace ++ ["*"]) utf_8
         [Sample.ledger_path] (Sample.ledger_world Sample.bare_transaction))
  = Return [lit "2020-01-01"].
Proof. by vm_compute. Qed.


(** Claim C2 fails on the code: a segment with a bar in the marker
    position does not match the transaction-start pattern, which the
    spec gives as date, space, [*] or [!], space, and yet the extractor
    returns it.  The set [[\*|\!]] of [transaction_regex] holds the
    bar. *)
Theorem extractor_keeps_bar_line :
  fst (extract_beancount_entries Sample.whitespace utf_8 [Sample.ledger_path]
         (Sample.ledger_world Sample.bar_line))
  = Return [Sample.bar_line]
  ∧ fst (extract_beancount_entries Sample.alternatives utf_8
           [Sample.ledger_path] (Sample.ledger_world Sample.bar_line))
    = Return [Sample.bar_line]
  ∧ blank_line_segments Sample.whitespace Sample.bar_line = [Sample.bar_line]
  ∧ anchored Sample.bar_line = false
  ∧ segment_entries Sample.whitespace Sample.whitespace Sample.bar_line = [].
Proof. by vm_compute. Qed.

End ExtractorFacts.

(** ** Text that UTF-8 can encode *)

Module TextFacts.

Import Str StrFacts Regex RegexFacts Json JsonFacts EmitterFacts Spec
  Beancount ExtractorFacts.

Lemma scalar_low c : (c < 0xD800)%N → scalar c = true.
Proof. intros Hc. apply scalar_intro. by left. Qed.

Lemma scalar_part (a e b : str) :
  forallb scalar (a ++ e ++ b) = true → forallb scalar e = true.
Proof.
  rewrite !forallb_app. by intros [_ [? _]%andb_true_iff]%andb_true_iff.
Qed.

Lemma universal_newlines_scalar s :
  forallb scalar s = true → forallb scalar (universal_newlines s) = true.
Proof.
  remember (length s) as n eqn:Hn. revert s Hn.
  induction n as [n IH] using lt_wf_ind. intros s -> Hs.
  destruct s as [|c tl]; [done|].
  cbn [forallb] in Hs. apply andb_true_iff in Hs as [Hc Htl].
  cbn [universal_newlines]. destruct (eqc CR c).
  - cbn [forallb]. change (scalar LF) with true. cbn [andb].
    destruct tl as [|d tl']; [done|]. destruct (eqc LF d).
    + cbn [forallb] in Htl. apply andb_true_iff in Htl as [_ Htl].
      apply (IH (length tl')); [simpl; lia|done..].
    + apply (IH (length (d :: tl'))); [simpl; lia|done..].
  - cbn [forallb]. rewrite Hc. cbn [andb].
    apply (IH (length tl)); [simpl; lia|done..].
Qed.

Lemma hex_digit_scalar n : (n < 16)%N → scalar (hex_digit n) = true.
Proof.
  intros Hn. apply scalar_low. unfold hex_digit. destruct (n <? 10)%N; lia.
Qed.

Lemma escape_char_scalar c :
  scalar c = true → forallb scalar (escape_char c) = true.
Proof.
  intros Hc.
  destruct (escape_char_cases c)
    as [[-> ->]|[[-> ->]|[[-> ->]|[[-> ->]|[[-> ->]|[[-> ->]|[[-> ->]
         |[[Hlow ->]|(_ & _ & _ & ->)]]]]]]]]; try reflexivity.
  - pose proof (N.div_mod c 16 ltac:(lia)) as Hdiv.
    pose proof (N.mod_lt c 16 ltac:(lia)) as Hmod.
    set (q := (c / 16)%N) in *. set (r := (c mod 16)%N) in *.
    cbn [forallb]. rewrite !hex_digit_scalar by lia. reflexivity.
  - simpl. by rewrite Hc.
Qed.

Lemma dumps_str_scalar s :
  forallb scalar s = true → forallb scalar (dumps_str s) = true.
Proof.
  intros Hs. unfold dumps_str. cbn [forallb]. rewrite forallb_app.
  change (scalar QUOTE) with true. cbn [forallb andb].
  rewrite andb_true_r.
  induction s as [|c s IH]; [done|]. simpl in *.
  apply andb_true_iff in Hs as [Hc Hs].
  by rewrite forallb_app, escape_char_scalar, IH.
Qed.

(** The JSON lines of entries without surrogates hold none. *)
Lemma jsonl_of_scalar entries :
  Forall (λ e, forallb scalar e = true) entries →
  forallb scalar (jsonl_of entries) = true.
Proof.
  induction 1 as [|e entries He _ IH]; [done|].
  rewrite jsonl_of_cons. unfold dumps, dumps_members.
  cbn [forallb app]. rewrite !forallb_app. cbn [forallb].
  rewrite !dumps_str_scalar by done. by rewrite IH.
Qed.

(** So the strict UTF-8 encoder accepts them. *)
Lemma utf8_encode_jsonl entries :
  Forall (λ e, forallb scalar e = true) entries →
  utf8_encode (jsonl_of entries)
  = Some (flat_map utf8_char (jsonl_of entries)).
Proof.
  intros Hs%jsonl_of_scalar. unfold utf8_encode. by rewrite Hs.
Qed.

(** The two codecs of this file decode to scalar values. *)
Lemma utf_8_decodes_scalars : decodes_scalars utf_8.
Proof. intros b s. apply utf8_decode_scalar. Qed.

Lemma latin_1_decodes_scalars : decodes_scalars latin_1.
Proof.
  intros b s [= <-]. induction b as [|x b IH]; [done|].
  rewrite fmap_cons. cbn [forallb]. rewrite IH, andb_true_r.
  apply scalar_low. pose proof (Byte.to_N_bounded x). lia.
Qed.

(** The text of a file, as such a codec reads it, holds no
    surrogate. *)
Lemma text_of_scalar locale w f text :
  decodes_scalars locale →
  text_of locale w f = Some text → forallb scalar text = true.
Proof.
  intros Hlocale. unfold text_of.
  destruct (fs w !! f) as [b|]; simpl; [|done].
  destruct (decode locale b) as [s|] eqn:Hs; simpl; [|done].
  intros [= <-]. by apply universal_newlines_scalar, (Hlocale b).
Qed.

(** Nor does any entry that the extractor returns. *)
Lemma extracted_scalar ees locale files w entries w' :
  decodes_scalars locale →
  extract_beancount_entries ees locale files w = (Return entries, w') →
  Forall (λ e, forallb scalar e = true) entries.
Proof.
  intros Hlocale Hrun.
  apply extract_loop_return in Hrun as (news & -> & Hnews). simpl.
  apply Forall_forall. intros e He.
  destruct (Hnews e He) as (f & text & cls & seg & _ & Ht & _ & Hseg & _ & ->).
  apply (text_of_scalar _ _ _ _ Hlocale) in Ht.
  destruct (split_infix _ _ _ Hseg) as (a & b & ->).
  apply scalar_part in Ht.
  destruct (strip_infix ees seg) as (a' & b' & Hs).
  rewrite Hs in Ht. by apply scalar_part in Ht.
Qed.

End TextFacts.

(** ** The pipeline, the locator, the emitter and the reader *)

Module PipelineFacts.

Import Str StrFacts Json JsonFacts EmitterFacts Spec Beancount ExtractorFacts
  TextFacts.

Local Open Scope io_scope.

Lemma no_events w : ∃ evs, trace w = trace w ++ evs ∧ ∀ p, OpenWrite p ∉ evs.
Proof.
  exists []. split; [by rewrite app_nil_r|]. intros p. apply not_elem_of_nil.
Qed.

Lemma one_event e w :
  (∀ q, e ≠ OpenWrite q) →
  ∃ evs, trace (emit e w) = trace w ++ evs ∧ ∀ p, OpenWrite p ∉ evs.
Proof.
  intros He. exists [e]. split; [done|].
  intros p ?%list_elem_of_singleton. by destruct (He p).
Qed.

Lemma writes_nothing_ret {A} (a : A) : writes_nothing (ret a).
Proof. intros w o w' [= <- <-]. auto using no_events. Qed.

Lemma writes_nothing_raise {A} e : writes_nothing (@raise A e).
Proof. intros w o w' [= <- <-]. auto using no_events. Qed.

Lemma writes_nothing_exit {A} n : writes_nothing (@exit A n).
Proof. intros w o w' [= <- <-]. auto using no_events. Qed.

Lemma writes_nothing_lift {A} e (o : option A) : writes_nothing (lift e o).
Proof.
  destruct o; [apply writes_nothing_ret | apply writes_nothing_raise].
Qed.

Lemma writes_nothing_bind {A B} (m : io A) (k : A → io B) :
  writes_nothing m → (∀ a, writes_nothing (k a)) → writes_nothing (bind m k).
Proof.
  intros Hm Hk w o w'. unfold bind.
  destruct (m w) as [[a|n|e] w1] eqn:Hmw;
    destruct (Hm _ _ _ Hmw) as (Hfs & Hro & evs & Htr & Hevs).
  - intros Hkw.
    destruct (Hk a _ _ _ Hkw) as (Hfs' & Hro' & evs' & Htr' & Hevs').
    split; [congruence|]. split; [congruence|].
    exists (evs ++ evs'). split; [by rewrite Htr', Htr, app_assoc|].
    intros p [?|?]%elem_of_app; [by eapply Hevs | by eapply Hevs'].
  - intros [= <- <-]. eauto.
  - intros [= <- <-]. eauto.
Qed.

Lemma writes_nothing_print m : writes_nothing (print m).
Proof.
  intros w o w' [= <- <-]. repeat split. by apply one_event.
Qed.

Lemma writes_nothing_when b m :
  writes_nothing m → writes_nothing (when b m).
Proof. destruct b; [done|]. intros _. apply writes_nothing_ret. Qed.

Lemma writes_nothing_read_bytes path : writes_nothing (read_bytes path).
Proof.
  intros w o w'. unfold read_bytes.
  destruct (fs w !! path); intros [= <- <-]; repeat split;
    by apply one_event.
Qed.

Create HintDb frame.

#[local] Hint Resolve writes_nothing_ret writes_nothing_raise
  writes_nothing_exit writes_nothing_lift writes_nothing_print
  writes_nothing_when writes_nothing_read_bytes writes_nothing_bind : frame.

(** Split a sequence of binds and close the steps that write
    nothing. *)
Ltac frame :=
  repeat first [ solve [auto 10 with frame]
               | apply writes_nothing_bind; [|intros ?] ].

Lemma writes_nothing_read_text enc path :
  writes_nothing (read_text enc path).
Proof. unfold read_text. frame. Qed.

#[local] Hint Resolve writes_nothing_read_text : frame.

Section Program.

Variable ees : str.
Variable get_absolute_path : str → str.
Variable glob_glob : gmap str bytes → str → list str.
Variable set_iter : gset str → list str.
Variable locale : codec.
Variable gzip_compress : bytes → bytes.
Variable gzip_decompress : bytes → option bytes.

Lemma writes_nothing_extract_loop files acc :
  writes_nothing (extract_loop ees locale files acc).
Proof.
  revert acc. induction files as [|f files IH]; intros acc; simpl.
  - apply writes_nothing_ret.
  - frame.
Qed.

Lemma writes_nothing_locate files pat verbose :
  writes_nothing
    (get_beancount_files get_absolute_path glob_glob files pat verbose).
Proof.
  unfold get_beancount_files.
  apply writes_nothing_bind.
  - destruct pat as [[|c cs]|]; try apply writes_nothing_ret.
    intros w o w' [= <- <-]. repeat split. by apply one_event.
  - intros filtered. frame.
Qed.

Lemma writes_nothing_convert entries verbose :
  writes_nothing (convert_beancount_entries_to_jsonl entries verbose).
Proof.
  unfold convert_beancount_entries_to_jsonl.
  frame.
Qed.

(** The locator always returns. *)
Lemma locate_returns files pat verbose w :
  ∃ found w',
    get_beancount_files get_absolute_path glob_glob files pat verbose w
    = (Return found, w').
Proof.
  unfold get_beancount_files, bind, when, print, ret.
  destruct pat as [[|c cs]|]; simpl;
    repeat (match goal with |- context [if ?b then _ else _] => destruct b end;
            simpl); eauto.
Qed.

Lemma convert_returns entries verbose w :
  ∃ w',
    convert_beancount_entries_to_jsonl entries verbose w
    = (Return (jsonl_of entries), w')
    ∧ fs w' = fs w ∧ readonly w' = readonly w.
Proof.
  unfold convert_beancount_entries_to_jsonl, bind, when, print, ret.
  case_bool_decide; simpl; eauto.
Qed.

#[local] Hint Resolve writes_nothing_extract_loop writes_nothing_locate
  writes_nothing_convert : frame.

Local Abbreviation run files pat output_file verbose :=
  (beancount_to_jsonl ees get_absolute_path glob_glob set_iter locale
     gzip_compress files pat output_file verbose).

Local Abbreviation locate files pat verbose :=
  (get_beancount_files get_absolute_path glob_glob files pat verbose).

(** The stage that persists the JSON lines, by the suffix of the
    destination. *)
Local Abbreviation writer jsonl_data output_file verbose :=
  (if bool_decide (Path.suffix output_file = lit ".gz") then
     compress_jsonl_data get_absolute_path locale gzip_compress
       jsonl_data output_file verbose
   else if bool_decide (Path.suffix output_file = lit ".jsonl") then
     dump_jsonl get_absolute_path jsonl_data output_file verbose
   else ret tt).

(** With an input source, readable files and a pattern that compiles,
    the pipeline is the writer stage run on the lines of the extracted
    entries, after stages that leave the files alone. *)
Lemma pipeline_front files pat verbose w found w1 entries w2 :
  is_none_or_empty files && is_none_or_empty pat = false →
  locate files pat verbose w = (Return found, w1) →
  extract_beancount_entries ees locale (set_iter found) w1
  = (Return entries, w2) →
  ∃ w3,
    fs w3 = fs w ∧ readonly w3 = readonly w
    ∧ ∀ output_file,
        run files pat output_file verbose w
        = bind (writer (jsonl_of entries) output_file verbose)
            (λ _, ret entries) w3.
Proof.
  intros Hvalid Hloc Hext.
  destruct (convert_returns entries verbose w2) as (w3 & Hconv & Hfs3 & Hro3).
  destruct (writes_nothing_locate _ _ _ _ _ _ Hloc) as (Hfs1 & Hro1 & _).
  destruct (writes_nothing_extract_loop _ _ _ _ _ Hext) as (Hfs2 & Hro2 & _).
  exists w3. repeat split; [congruence..|].
  intros output_file. unfold beancount_to_jsonl.
  rewrite Hvalid. unfold when at 1. unfold bind at 1. unfold ret at 1.
  unfold bind at 1. rewrite Hloc.
  unfold bind at 1. rewrite Hext.
  unfold bind at 1. by rewrite Hconv.
Qed.

(** Claim C5.  When the explicit file list is absent or empty and the
    glob filter is absent or empty, the pipeline prints its message
    and exits with status 1; nothing else happens: no file is located,
    opened, read or written. *)
Theorem missing_input_exits files pat output_file verbose w :
  files = None ∨ files = Some [] →
  pat = None ∨ pat = Some [] →
  run files pat output_file verbose w
  = (Exit 1, emit (Print MsgRequired) w).
Proof. by intros [->| ->] [->| ->]. Qed.

(** Claim C10.  For an input path whose suffix is neither [.gz] nor
    [.jsonl], [load_jsonl] opens no file and does not return: iterating
    over the file handle, which is still [None], raises [TypeError]. *)
Theorem load_jsonl_unknown_suffix input_path verbose w :
  Path.suffix input_path ≠ lit ".gz" →
  Path.suffix input_path ≠ lit ".jsonl" →
  load_jsonl ees get_absolute_path gzip_decompress input_path verbose w
  = (Raise TypeError, w).
Proof.
  intros Hgz Hjsonl. unfold load_jsonl.
  by rewrite !bool_decide_eq_false_2 by done.
Qed.

(** Claim C4.  For an output path whose suffix is neither [.gz] nor
    [.jsonl], the pipeline leaves the files as they are and opens none
    for writing, and the writer stage raises nothing: when the files
    are located and their entries extracted, the run returns. *)
Theorem unknown_suffix_writes_nothing files pat output_file verbose w :
  Path.suffix output_file ≠ lit ".gz" →
  Path.suffix output_file ≠ lit ".jsonl" →
  fs (snd (run files pat output_file verbose w)) = fs w
  ∧ (∃ evs,
       trace (snd (run files pat output_file verbose w)) = trace w ++ evs
       ∧ ∀ p, OpenWrite p ∉ evs)
  ∧ (∀ found w1 entries w2,
       is_none_or_empty files && is_none_or_empty pat = false →
       locate files pat verbose w = (Return found, w1) →
       extract_beancount_entries ees locale (set_iter found) w1
       = (Return entries, w2) →
       fst (run files pat output_file verbose w) = Return entries).
Proof.
  intros Hgz Hjsonl.
  assert (writes_nothing (run files pat output_file verbose)) as Hframe.
  { unfold beancount_to_jsonl, extract_beancount_entries.
    rewrite !bool_decide_eq_false_2 by done. frame. }
  destruct (run files pat output_file verbose w) as [o w'] eqn:Hrun.
  destruct (Hframe _ _ _ Hrun) as (Hfs & _ & Htrace).
  repeat split; [done..|].
  intros found w1 entries w2 Hvalid Hloc Hext.
  destruct (pipeline_front _ _ _ _ _ _ _ _ Hvalid Hloc Hext)
    as (w3 & _ & _ & Hw).
  rewrite Hw in Hrun. rewrite !bool_decide_eq_false_2 in Hrun by done.
  by injection Hrun as <- _.
Qed.

(** Claim C9.  With an input source, files that are located and
    entries that are extracted, [beancount_to_jsonl] returns the list
    of the extracted entries whatever the writer stage does: when the
    suffix of the output is not recognized and nothing is written, and
    when the plain or the gzip writer writes the file, which it does
    when the destination can be written and the text can be encoded.
    Whenever the call returns, it returns this list.  UTF-8 encodes
    the text of entries that were decoded from files, since a decoder
    returns no surrogate. *)
Theorem pipeline_returns_entries files pat verbose w found w1 entries w2 :
  is_none_or_empty files && is_none_or_empty pat = false →
  locate files pat verbose w = (Return found, w1) →
  extract_beancount_entries ees locale (set_iter found) w1
  = (Return entries, w2) →
  (∀ output_file,
     Path.suffix output_file ≠ lit ".gz" →
     Path.suffix output_file ≠ lit ".jsonl" →
     fst (run files pat output_file verbose w) = Return entries)
  ∧ (∀ output_file,
       Path.suffix output_file = lit ".jsonl" →
       get_absolute_path output_file ∉ readonly w →
       is_Some (encode utf_8 (jsonl_of entries)) →
       fst (run files pat output_file verbose w) = Return entries)
  ∧ (∀ output_file,
       Path.suffix output_file = lit ".gz" →
       get_absolute_path output_file ∉ readonly w →
       is_Some (encode locale (jsonl_of entries)) →
       fst (run files pat output_file verbose w) = Return entries)
  ∧ (∀ output_file v,
       fst (run files pat output_file verbose w) = Return v → v = entries)
  ∧ (decodes_scalars locale →
     is_Some (encode utf_8 (jsonl_of entries))).
Proof.
  intros Hvalid Hloc Hext.
  destruct (pipeline_front _ _ _ _ _ _ _ _ Hvalid Hloc Hext)
    as (w3 & _ & Hro & Hw).
  split; [|split; [|split; [|split]]].
  - intros output_file Hgz Hjsonl. rewrite Hw.
    by rewrite !bool_decide_eq_false_2 by done.
  - intros output_file Hjsonl Hwr [b Hb]. rewrite Hw, Hjsonl.
    rewrite bool_decide_eq_false_2, bool_decide_eq_true_2 by done.
    unfold dump_jsonl, write_text, bind, when, print, ret.
    rewrite bool_decide_eq_false_2 by by rewrite Hro.
    rewrite Hb. by case_bool_decide.
  - intros output_file Hgz Hwr [b Hb]. rewrite Hw, Hgz.
    rewrite bool_decide_eq_true_2 by done.
    unfold compress_jsonl_data, gzip_write_text, bind, when, print, ret.
    rewrite bool_decide_eq_false_2 by by rewrite Hro.
    rewrite Hb. by case_bool_decide.
  - intros output_file v. rewrite Hw.
    unfold compress_jsonl_data, dump_jsonl, gzip_write_text, write_text,
      bind, when, print, ret.
    cbn [encode utf_8].
    destruct (utf8_encode (jsonl_of entries)),
      (encode locale (jsonl_of entries));
      repeat case_bool_decide; simpl; by intros [= ->].
  - intros Hlocale. simpl.
    rewrite utf8_encode_jsonl by by eapply extracted_scalar. eauto.
Qed.

(** Claim C6.  A resolved path, from the explicit list or from the
    glob filter, whose name ends in neither [.bean] nor [.beancount]
    is in the set that the locator returns, and the locator prints its
    warning with a set of paths that holds this path.  A resolved path
    is absolute, so it is not the empty string. *)
Theorem locator_warns_and_keeps files pat verbose w p :
  p ≠ [] →
  (∃ fl f, files = Some fl ∧ f ∈ fl ∧ p = get_absolute_path f)
  ∨ (∃ c cs, pat = Some (c :: cs)
             ∧ p ∈ glob_glob (fs w) (get_absolute_path (c :: cs))) →
  not_beancount p →
  ∃ found nb w' evs,
    locate files pat verbose w = (Return found, w')
    ∧ p ∈ found ∧ p ∈ nb
    ∧ trace w' = trace w ++ evs
    ∧ Print (MsgNonBeancount nb) ∈ evs.
Proof.
  intros Hp Hres Hnb. unfold get_beancount_files.
  set (absolute := match files with
                   | Some (f :: fl) =>
                       list_to_set (get_absolute_path <$> f :: fl)
                   | _ => ∅
                   end : gset str).
  set (filtered := match pat with
                   | Some (c :: cs) =>
                       list_to_set
                         (glob_glob (fs w) (get_absolute_path (c :: cs)))
                   | _ => ∅
                   end : gset str).
  assert (p ∈ absolute ∪ filtered) as Hin.
  { destruct Hres as [(fl & f & -> & Hf & ->)|(c & cs & -> & Hg)].
    - apply elem_of_union_l. subst absolute.
      destruct fl as [|f' fl]; [by apply elem_of_nil in Hf|].
      apply elem_of_list_to_set, list_elem_of_fmap. eauto.
    - apply elem_of_union_r. subst filtered.
      by apply elem_of_list_to_set. }
  assert (p ∈ filter not_beancount (absolute ∪ filtered)) as Hwarn.
  { by apply elem_of_filter. }
  assert (any (filter not_beancount (absolute ∪ filtered)) = true) as Hany.
  { apply bool_decide_eq_true. eauto. }
  exists (absolute ∪ filtered), (filter not_beancount (absolute ∪ filtered)).
  unfold bind, when, print, ret.
  destruct pat as [[|c cs]|]; fold filtered; rewrite Hany;
    case_bool_decide; simpl; eexists _, _; (split; [reflexivity|]);
    (split; [done|]); (split; [done|]); simpl;
    rewrite <- ?app_assoc; (split; [reflexivity|]);
    rewrite ?elem_of_app, ?list_elem_of_singleton; auto.
Qed.

Lemma dump_jsonl_ok text output_path verbose w :
  get_absolute_path output_path ∉ readonly w →
  forallb scalar text = true →
  ∃ w',
    dump_jsonl get_absolute_path text output_path verbose w = (Return tt, w')
    ∧ fs w' = <[get_absolute_path output_path := flat_map utf8_char text]>
                (fs w).
Proof.
  intros Hwr Htext. unfold dump_jsonl, write_text, bind, when, print, ret.
  rewrite bool_decide_eq_false_2 by done. simpl.
  unfold utf8_encode. rewrite Htext.
  case_bool_decide; eauto.
Qed.

Lemma load_lines_json entries data w :
  "{" ∉ ees → "}" ∉ ees →
  load_lines ees ((λ e, dumps [(lit "Title", e)] ++ [LF]) <$> entries) data w
  = (Return (data ++ ((λ e, [(lit "Title", e)]) <$> entries)), w).
Proof.
  intros Hopen Hclose. revert data.
  induction entries as [|e entries IH]; intros data.
  - simpl. by rewrite app_nil_r.
  - cbn [fmap list_fmap load_lines].
    destruct (strip_json_line ees e Hopen Hclose) as (ws & Hws & ->).
    rewrite loads_dumps_title by done. unfold bind, lift, ret.
    change (?f <$> entries) with (list_fmap _ _ f entries) in IH.
    rewrite IH. by rewrite <- app_assoc.
Qed.

(** Claim C3, amended.  The entries serialized by the emitter and
    written by [dump_jsonl] to a [.jsonl] path, read back by
    [load_jsonl], are as many objects, in the same order, each with the
    entry as its [Title], character for character, for every list of
    entries that hold no surrogate: these are the strings that UTF-8
    encodes, every string decoded from a file among them, whatever its
    script.  The braces of the JSON lines are not among the characters
    that the reader strips. *)
Theorem jsonl_roundtrip entries output_path verbose verbose' w :
  "{" ∉ ees → "}" ∉ ees →
  Path.suffix output_path = lit ".jsonl" →
  get_absolute_path output_path ∉ readonly w →
  Forall (λ e, forallb scalar e = true) entries →
  ∃ w1 w2 w3 data,
    convert_beancount_entries_to_jsonl entries verbose w
    = (Return (jsonl_of entries), w1)
    ∧ dump_jsonl get_absolute_path (jsonl_of entries) output_path verbose w1
      = (Return tt, w2)
    ∧ load_jsonl ees get_absolute_path gzip_decompress output_path verbose' w2
      = (Return data, w3)
    ∧ data = (λ e, [(lit "Title", e)]) <$> entries
    ∧ length data = length entries
    ∧ Json.lookup (lit "Title") <$> data = Some <$> entries.
Proof.
  intros Hopen Hclose Hsuffix Hwr Hentries.
  pose proof (jsonl_of_scalar entries Hentries) as Htext_scalar.
  destruct (convert_returns entries verbose w) as (w1 & Hconv & Hfs1 & Hro1).
  destruct (dump_jsonl_ok (jsonl_of entries) output_path verbose w1)
    as (w2 & Hdump & Hfs2); [by rewrite Hro1|done|].
  assert (text_of utf_8 w2 (get_absolute_path output_path)
          = Some (jsonl_of entries)) as Htext.
  { unfold text_of. rewrite Hfs2, lookup_insert_eq. simpl.
    rewrite utf8_roundtrip by done. simpl.
    by rewrite universal_newlines_jsonl. }
  assert (fst (load_jsonl ees get_absolute_path gzip_decompress output_path
                 verbose' w2)
          = Return ((λ e, [(lit "Title", e)]) <$> entries)) as Hload.
  { unfold load_jsonl. rewrite Hsuffix.
    rewrite bool_decide_eq_false_2, bool_decide_eq_true_2 by done.
    unfold bind at 1. unfold bind at 1.
    rewrite (read_text_some _ _ _ _ Htext). unfold ret at 1.
    rewrite file_lines_jsonl. unfold bind at 1.
    rewrite load_lines_json by done. simpl.
    unfold bind, when, print, ret. by case_bool_decide. }
  destruct (load_jsonl ees get_absolute_path gzip_decompress output_path
              verbose' w2) as [o w3] eqn:Hl.
  simpl in Hload. subst o.
  exists w1, w2, w3, ((λ e, [(lit "Title", e)]) <$> entries).
  do 4 (split; [done|]). split; [by rewrite length_fmap|].
  rewrite <- list_fmap_compose. by apply list_fmap_ext.
Qed.

End Program.

(** Claim C8 fails on the code: the writers report
    [len(jsonl_data.split('\n'))], which is one more than the number of
    entries, since every JSON line ends in a line feed and the split
    gives an empty last piece.  The number of JSON lines written is the
    number of entries.  For one entry the plain writer reports 2. *)
Theorem writers_report_one_more entries :
  jsonl_entries (jsonl_of entries) = S (length entries)
  ∧ json_lines (jsonl_of entries) = length entries
  ∧ trace (snd (dump_jsonl Sample.absolute
                  (jsonl_of [Sample.first_transaction])
                  (lit "/out.jsonl") 1 (World ∅ ∅ [])))
    = [OpenWrite (lit "/out.jsonl"); Print (MsgWrote 2 (lit "/out.jsonl"))].
Proof.
  split; [apply jsonl_entries_count|]. split; [apply json_lines_count|].
  by vm_compute.
Qed.

(** The two writers agree when the preferred encoding is UTF-8: what
    the gzip writer stores decompresses to the bytes that the plain
    writer stores. *)
Lemma gzip_writer_matches_plain_utf_8 get_absolute_path gzip gunzip
    jsonl_data plain_path gzip_path verbose w :
  (∀ b, gunzip (gzip b) = Some b) →
  get_absolute_path plain_path ∉ readonly w →
  get_absolute_path gzip_path ∉ readonly w →
  fs (snd (compress_jsonl_data get_absolute_path utf_8 gzip jsonl_data
             gzip_path verbose w)) !! get_absolute_path gzip_path
    ≫= gunzip
  = fs (snd (dump_jsonl get_absolute_path jsonl_data plain_path verbose w))
      !! get_absolute_path plain_path.
Proof.
  intros Hgz Hplain Hgzip.
  unfold compress_jsonl_data, dump_jsonl, gzip_write_text, write_text,
    bind, when, print, ret.
  rewrite (bool_decide_eq_false_2 _ Hplain), (bool_decide_eq_false_2 _ Hgzip).
  cbn [encode utf_8].
  destruct (utf8_encode jsonl_data); simpl; try case_bool_decide; simpl;
    rewrite !lookup_insert_eq; simpl; apply Hgz.
Qed.

(** An instance, with the stored container for gzip and an entry with
    a letter outside ASCII. *)
Lemma gzip_writer_matches_plain_utf_8_witness :
  fs (snd (compress_jsonl_data Sample.absolute utf_8 Sample.stored_compress
             (jsonl_of [Sample.cafe]) (lit "/out.jsonl.gz") 1 (World ∅ ∅ [])))
    !! Sample.absolute (lit "/out.jsonl.gz")
    ≫= Sample.stored_decompress
  = fs (snd (dump_jsonl Sample.absolute (jsonl_of [Sample.cafe])
               (lit "/out.jsonl") 1 (World ∅ ∅ [])))
      !! Sample.absolute (lit "/out.jsonl").
Proof.
  apply (gzip_writer_matches_plain_utf_8 Sample.absolute
           Sample.stored_compress Sample.stored_decompress).
  - by intros b.
  - apply not_elem_of_empty.
  - apply not_elem_of_empty.
Defined.

(** Claim C7 fails on the code: [compress_jsonl_data] opens the gzip
    file in text mode without [encoding], so the text is encoded in the
    preferred encoding of the locale, while [dump_jsonl] (and
    [load_jsonl], for both kinds of file) name UTF-8.  Under a Latin-1
    locale an entry with a letter outside ASCII is stored as other
    bytes by the two writers. *)
Theorem gzip_writer_uses_locale get_absolute_path gzip gunzip :
  (∀ b, gunzip (gzip b) = Some b) →
  let jsonl_data := jsonl_of [Sample.cafe] in
  let w := World ∅ ∅ [] in
  fs (snd (dump_jsonl get_absolute_path jsonl_data (lit "out.jsonl") 0 w))
    !! get_absolute_path (lit "out.jsonl")
  = Some (Sample.utf8 jsonl_data)
  ∧ fs (snd (compress_jsonl_data get_absolute_path latin_1 gzip jsonl_data
               (lit "out.jsonl.gz") 0 w))
      !! get_absolute_path (lit "out.jsonl.gz") ≫= gunzip
    = Some (byte_of_N <$> jsonl_data)
  ∧ Sample.utf8 jsonl_data ≠ byte_of_N <$> jsonl_data.
Proof.
  intros Hgz jsonl_data w.
  unfold compress_jsonl_data, dump_jsonl, gzip_write_text, write_text,
    bind, when, print, ret.
  subst w. cbn [readonly].
  rewrite !(bool_decide_eq_false_2 (_ ∈ ∅)) by apply not_elem_of_empty.
  simpl. rewrite !lookup_insert_eq. simpl. rewrite Hgz.
  repeat split. by vm_compute.
Qed.

(** An instance, with the stored container for gzip. *)
Lemma gzip_writer_uses_locale_witness :
  let jsonl_data := jsonl_of [Sample.cafe] in
  let w := World ∅ ∅ [] in
  fs (snd (dump_jsonl Sample.absolute jsonl_data (lit "out.jsonl") 0 w))
    !! Sample.absolute (lit "out.jsonl")
  = Some (Sample.utf8 jsonl_data)
  ∧ fs (snd (compress_jsonl_data Sample.absolute latin_1
               Sample.stored_compress jsonl_data (lit "out.jsonl.gz") 0 w))
      !! Sample.absolute (lit "out.jsonl.gz") ≫= Sample.stored_decompress
    = Some (byte_of_N <$> jsonl_data)
  ∧ Sample.utf8 jsonl_data ≠ byte_of_N <$> jsonl_data.
Proof.
  apply (gzip_writer_uses_locale Sample.absolute Sample.stored_compress
           Sample.stored_decompress).
  by intros b.
Defined.

(** *** Instances *)

Local Abbreviation sample_run files pat output_file verbose :=
  (beancount_to_jsonl Sample.whitespace Sample.absolute Sample.no_glob
     elements utf_8 Sample.stored_compress files pat output_file verbose).

(** An instance: no file list and an empty filter. *)
Lemma missing_input_exits_witness :
  sample_run None (Some []) (lit "/out.jsonl") 0
    (Sample.ledger_world Sample.two_transactions)
  = (Exit 1,
     emit (Print MsgRequired) (Sample.ledger_world Sample.two_transactions)).
Proof.
  apply (missing_input_exits Sample.whitespace Sample.absolute Sample.no_glob
           elements utf_8 Sample.stored_compress None (Some [])).
  - by left.
  - by right.
Defined.

(** An instance: a path that ends in [.txt]. *)
Lemma load_jsonl_unknown_suffix_witness :
  load_jsonl Sample.whitespace Sample.absolute Sample.stored_decompress
    (lit "/out.txt") 1 (Sample.ledger_world Sample.two_transactions)
  = (Raise TypeError, Sample.ledger_world Sample.two_transactions).
Proof.
  apply (load_jsonl_unknown_suffix Sample.whitespace Sample.absolute
           Sample.stored_decompress (lit "/out.txt") 1).
  - by vm_compute.
  - by vm_compute.
Defined.

(** An instance: one ledger file and an output path that ends in
    [.txt]. *)
Lemma unknown_suffix_writes_nothing_witness :
  let w := Sample.ledger_world Sample.two_transactions in
  let r := sample_run (Some [Sample.ledger_path]) None (lit "/out.txt") 1 w in
  fs (snd r) = fs w
  ∧ (∃ evs, trace (snd r) = trace w ++ evs ∧ ∀ p, OpenWrite p ∉ evs)
  ∧ (∀ found w1 entries w2,
       is_none_or_empty (Some [Sample.ledger_path])
         && is_none_or_empty (A := char) None = false →
       get_beancount_files Sample.absolute Sample.no_glob
         (Some [Sample.ledger_path]) None 1 w = (Return found, w1) →
       extract_beancount_entries Sample.whitespace utf_8 (elements found) w1
       = (Return entries, w2) →
       fst r = Return entries).
Proof.
  apply (unknown_suffix_writes_nothing Sample.whitespace Sample.absolute
           Sample.no_glob elements utf_8 Sample.stored_compress
           (Some [Sample.ledger_path]) None (lit "/out.txt") 1).
  - by vm_compute.
  - by vm_compute.
Defined.

(** An instance: one ledger file with two transactions. *)
Lemma pipeline_returns_entries_witness :
  let w := Sample.ledger_world Sample.two_transactions in
  let entries := [Sample.first_transaction; Sample.second_transaction] in
  (∀ output_file,
     Path.suffix output_file ≠ lit ".gz" →
     Path.suffix output_file ≠ lit ".jsonl" →
     fst (sample_run (Some [Sample.ledger_path]) None output_file 0 w)
     = Return entries)
  ∧ (∀ output_file,
       Path.suffix output_file = lit ".jsonl" →
       Sample.absolute output_file ∉ readonly w →
       is_Some (encode utf_8 (jsonl_of entries)) →
       fst (sample_run (Some [Sample.ledger_path]) None output_file 0 w)
       = Return entries)
  ∧ (∀ output_file,
       Path.suffix output_file = lit ".gz" →
       Sample.absolute output_file ∉ readonly w →
       is_Some (encode utf_8 (jsonl_of entries)) →
       fst (sample_run (Some [Sample.ledger_path]) None output_file 0 w)
       = Return entries)
  ∧ (∀ output_file v,
       fst (sample_run (Some [Sample.ledger_path]) None output_file 0 w)
       = Return v →
       v = entries)
  ∧ (decodes_scalars utf_8 → is_Some (encode utf_8 (jsonl_of entries))).
Proof.
  eapply (pipeline_returns_entries Sample.whitespace Sample.absolute
            Sample.no_glob elements utf_8 Sample.stored_compress
            (Some [Sample.ledger_path]) None 0
            (Sample.ledger_world Sample.two_transactions)).
  - reflexivity.
  - reflexivity.
  - by vm_compute.
Defined.

(** An instance: a file named [/notes.txt] in the explicit list. *)
Lemma locator_warns_and_keeps_witness :
  ∃ found nb w' evs,
    get_beancount_files Sample.absolute Sample.no_glob
      (Some [lit "/notes.txt"]) None 0 (World ∅ ∅ [])
    = (Return found, w')
    ∧ lit "/notes.txt" ∈ found ∧ lit "/notes.txt" ∈ nb
    ∧ trace w' = [] ++ evs
    ∧ Print (MsgNonBeancount nb) ∈ evs.
Proof.
  apply (locator_warns_and_keeps Sample.absolute Sample.no_glob
           (Some [lit "/notes.txt"]) None 0 (World ∅ ∅ []) (lit "/notes.txt")).
  - done.
  - left. exists [lit "/notes.txt"], (lit "/notes.txt").
    split; [done|]. split; [by left | done].
  - by vm_compute.
Defined.

(** An instance: four entries, with a line feed, a letter outside
    ASCII, the euro sign and a character beyond the basic plane. *)
Lemma jsonl_roundtrip_witness :
  let entries := [Sample.first_transaction; Sample.cafe;
                  Example.euro_transaction; Example.astral] in
  ∃ w1 w2 w3 data,
    convert_beancount_entries_to_jsonl entries 1 (World ∅ ∅ [])
    = (Return (jsonl_of entries), w1)
    ∧ dump_jsonl Sample.absolute (jsonl_of entries) (lit "/out.jsonl") 1 w1
      = (Return tt, w2)
    ∧ load_jsonl Sample.whitespace Sample.absolute Sample.stored_decompress
        (lit "/out.jsonl") 1 w2
      = (Return data, w3)
    ∧ data = (λ e, [(lit "Title", e)]) <$> entries
    ∧ length data = length entries
    ∧ Json.lookup (lit "Title") <$> data = Some <$> entries.
Proof.
  apply (jsonl_roundtrip Sample.whitespace Sample.absolute
           Sample.stored_decompress
           [Sample.first_transaction; Sample.cafe;
            Example.euro_transaction; Example.astral]
           (lit "/out.jsonl") 1 1 (World ∅ ∅ [])).
  - intros Hin.
    repeat (apply elem_of_cons in Hin as [?|Hin]; [done|]).
    by apply elem_of_nil in Hin.
  - intros Hin.
    repeat (apply elem_of_cons in Hin as [?|Hin]; [done|]).
    by apply elem_of_nil in Hin.
  - by vm_compute.
  - apply not_elem_of_empty.
  - repeat (constructor; [by vm_compute|]). constructor.
Defined.

(** Claim C3 as stated fails: for a list of one entry that holds a
    surrogate alone, [dump_jsonl] raises the error of the encoder and
    leaves an empty file, and [load_jsonl] then returns no object,
    where the claim has one. *)
Lemma lone_surrogate_is_not_written :
  let jsonl_data := jsonl_of [Example.lone_surrogate] in
  let r := dump_jsonl Sample.absolute jsonl_data (lit "/out.jsonl") 0
             (World ∅ ∅ []) in
  fst r = Raise UnicodeError
  ∧ fs (snd r) !! Sample.absolute (lit "/out.jsonl") = Some []
  ∧ fst (load_jsonl Sample.whitespace Sample.absolute
           Sample.stored_decompress (lit "/out.jsonl") 0 (snd r))
    = Return [].
Proof. by vm_compute. Qed.

End PipelineFacts.

(** ** The entries of a file *)

Module EntryFacts.

Import Str StrFacts Regex RegexFacts Spec Beancount ExtractorFacts.

Section Pieces.

Variable cls : list char.

(** Lines that are not blank belong to one piece, with what comes
    after them. *)
Lemma split_loop_no_blank n ls r :
  ls ≠ [] → Forall (λ l, blank cls l = false ∧ LF ∉ l) ls →
  split_loop cls (S n) false true (join_lines ls ++ LF :: r)
  = cont (join_lines ls ++ [LF]) (split_loop cls (S n) false true r).
Proof.
  intros Hne Hls. induction Hls as [|l ls [Hb Hl] Hls IH]; [done|].
  destruct ls as [|l' ls].
  - by apply split_loop_nonblank_line.
  - rewrite join_lines_cons by done. rewrite <- !app_assoc. cbn [app].
    rewrite split_loop_nonblank_line by done. rewrite IH by done.
    rewrite cont_cont. f_equal. by rewrite <- !app_assoc.
Qed.

Lemma no_blank_lines text :
  Forall (λ l, blank cls l = false) (split_lines text) →
  Forall (λ l, blank cls l = false ∧ LF ∉ l) (split_lines text).
Proof.
  intros Hls. pose proof (split_lines_LF_free text) as Hlf.
  apply Forall_forall. intros l Hin.
  rewrite Forall_forall in Hls, Hlf. auto.
Qed.

(** A text without a blank line is one piece. *)
Lemma split_no_blank text :
  Forall (λ l, blank cls l = false) (split_lines text) →
  split cls text = [text].
Proof.
  intros Hls%no_blank_lines. unfold split.
  replace (2 * length text + 2) with (S (2 * length text + 1)) by lia.
  pose proof (split_lines_nonempty text) as Hne.
  rewrite <- (join_split_lines text) at 2 3.
  destruct (split_lines text) as [|l ls] using rev_ind; [done|].
  apply Forall_app in Hls as [Hls [[Hb Hl] _]%Forall_cons].
  destruct (decide (ls = [])) as [->|Hls'].
  - by apply split_loop_nonblank_last.
  - rewrite join_lines_snoc by done.
    rewrite split_loop_no_blank by done.
    rewrite split_loop_nonblank_last by done. simpl.
    by rewrite <- app_assoc.
Qed.

(** The same with a line feed at the end of the text: the second piece
    is empty. *)
Lemma split_no_blank_LF text :
  Forall (λ l, blank cls l = false) (split_lines text) →
  split cls (text ++ [LF]) = [text ++ [LF]; []].
Proof.
  intros Hls%no_blank_lines. unfold split.
  replace (2 * length (text ++ [LF]) + 2)
    with (S (S (2 * length (text ++ [LF])))) by lia.
  rewrite <- (join_split_lines text) at 2 3.
  rewrite split_loop_no_blank by auto using split_lines_nonempty.
  cbn. by rewrite app_nil_r.
Qed.

End Pieces.


Section Loop.

Variable ees : str.
Variable locale : codec.

Lemma text_of_fs enc w w0 path :
  fs w0 = fs w → text_of enc w0 path = text_of enc w path.
Proof. unfold text_of. by intros ->. Qed.

Lemma extract_loop_app good rest acc w :
  extract_loop ees locale (good ++ rest) acc w
  = bind (extract_loop ees locale good acc) (extract_loop ees locale rest) w.
Proof.
  revert acc w. induction good as [|f good IH]; intros acc w; [reflexivity|].
  simpl. unfold bind in *.
  destruct (read_text locale f w) as [[t| |] w1]; [|done..].
  destruct (lift UnmodelledPattern (set_members ees) w1) as [[cls| |] w2];
    [|done..].
  apply IH.
Qed.

Lemma read_text_none enc path w :
  text_of enc w path = None →
  read_text enc path w
  = (Raise (if fs w !! path is Some _ then UnicodeError
            else FileNotFoundError path),
     emit (OpenRead path) w).
Proof.
  unfold text_of, read_text, bind, read_bytes, lift, ret, raise.
  destruct (fs w !! path) as [b|]; simpl; [|done].
  by destruct (decode enc b).
Qed.

Lemma extract_loop_per_file files acc w entries w' :
  extract_loop ees locale files acc w = (Return entries, w') →
  w' = World (fs w) (readonly w) (trace w ++ (OpenRead <$> files))
  ∧ ∃ per_file,
      Forall2 (λ f es, ∀ w0, fs w0 = fs w →
                 fst (extract_loop ees locale [f] [] w0) = Return es)
        files per_file
      ∧ entries = acc ++ concat per_file.
Proof.
  revert acc w entries w'.
  induction files as [|f files IH]; intros acc w entries w' Hrun.
  - injection Hrun as <- <-. simpl. rewrite !app_nil_r.
    split; [by destruct w|]. exists []. split; [constructor|].
    by rewrite app_nil_r.
  - cbn [extract_loop] in Hrun. unfold bind at 1 in Hrun.
    destruct (read_text locale f w) as [[t| |] w1] eqn:Hread; [|done..].
    apply read_text_return in Hread as [Ht ->].
    unfold bind at 1, lift in Hrun.
    destruct (set_members ees) as [cls|] eqn:Hcls; [|done].
    apply IH in Hrun as (-> & per & Hper & ->).
    split; [simpl; by rewrite <- app_assoc|].
    exists (entries_of ees (split cls t) :: per). split.
    + constructor; [|exact Hper].
      intros w0 Hw0. cbn [extract_loop]. unfold bind at 1.
      rewrite (read_text_some _ _ _ t) by by rewrite (text_of_fs _ w).
      unfold bind, lift. by rewrite Hcls.
    + simpl. by rewrite <- app_assoc.
Qed.

End Loop.

Section Entries.

Variable ees : str.
Variable locale : codec.

(** Every string that the entry extractor returns is trimmed, and it
    is a part of the text of one of the files: at neither end of an
    entry is there a character of [empty_escape_sequences], and the
    file's text is the entry with some text before and some after.
    The extractor rewrites nothing inside an entry. *)
Theorem extracted_entry_trimmed files w entries w' e :
  extract_beancount_entries ees locale files w = (Return entries, w') →
  e ∈ entries →
  (∀ c, head e = Some c ∨ last e = Some c → c ∉ ees)
  ∧ ∃ f text before after,
      f ∈ files ∧ text_of locale w f = Some text
      ∧ text = before ++ e ++ after.
Proof.
  intros Hrun He.
  apply extract_loop_return in Hrun as (news & -> & Hnews).
  destruct (Hnews e He) as (f & text & cls & seg & Hf & Ht & _ & Hseg & _ & ->).
  split.
  - destruct (strip_ends ees seg) as [Hfront Hback].
    intros c [Hc|Hc].
    + destruct (strip ees seg) as [|c' r] eqn:E; [done|].
      injection Hc as ->. by eapply Hfront.
    + apply last_Some in Hc as [r Hr]. by eapply Hback.
  - destruct (split_infix _ _ _ Hseg) as (a & b & ->).
    destruct (strip_infix ees seg) as (a' & b' & Hs).
    exists f, (a ++ seg ++ b), (a ++ a'), (b' ++ b).
    split; [done|]. split; [done|].
    rewrite Hs at 1. by rewrite <- !app_assoc.
Qed.

(** The extractor reads the files in order and stops at the first one
    that cannot be read: the exception of that file propagates
    ([FileNotFoundError] for a missing file, a Unicode error for bytes
    that do not decode), the entries of the files before it are lost,
    and no later file is opened. *)
Theorem extractor_stops_at_unreadable cls good f rest w :
  set_members ees = Some cls →
  Forall (λ g, is_Some (text_of locale w g)) good →
  text_of locale w f = None →
  extract_beancount_entries ees locale (good ++ f :: rest) w
  = (Raise (if fs w !! f is Some _ then UnicodeError else FileNotFoundError f),
     World (fs w) (readonly w) (trace w ++ (OpenRead <$> good ++ [f]))).
Proof.
  intros Hcls Hgood Hf. unfold extract_beancount_entries.
  rewrite extract_loop_app. unfold bind at 1.
  rewrite (extract_loop_ok ees locale cls) by done.
  simpl. unfold bind at 1.
  rewrite read_text_none by done. simpl.
  by rewrite fmap_app, app_assoc.
Qed.

(** The extraction works file by file: when it returns, every file was
    opened for reading once, in the order given, no file was changed,
    and the entries are those of each file extracted alone, one file
    after the other. *)
Theorem extraction_is_per_file files w entries w' :
  extract_beancount_entries ees locale files w = (Return entries, w') →
  w' = World (fs w) (readonly w) (trace w ++ (OpenRead <$> files))
  ∧ ∃ per_file,
      Forall2 (λ f es, fst (extract_beancount_entries ees locale [f] w)
                       = Return es)
        files per_file
      ∧ entries = concat per_file.
Proof.
  intros (-> & per & Hper & ->)%extract_loop_per_file.
  split; [done|]. exists per. split; [|done].
  eapply Forall2_impl; [exact Hper|]. intros f es H. by apply H.
Qed.

(** A text without a blank line is a single piece.  When it starts
    with a transaction the extractor returns one entry, the whole text
    trimmed, however many transactions follow the first; when it starts
    with another directive the extractor returns nothing. *)
Theorem unseparated_text_is_one_entry cls f w body trailing :
  set_members ees = Some cls →
  text_of locale w f = Some (body ++ trailing) →
  Forall (λ l, blank cls l = false) (split_lines body) →
  trailing = [] ∨ trailing = [LF] →
  fst (extract_beancount_entries ees locale [f] w)
  = Return (if transaction_match (body ++ trailing)
            then [strip ees (body ++ trailing)] else []).
Proof.
  intros Hcls Ht Hlines Htrailing. unfold extract_beancount_entries.
  rewrite (extract_loop_ok ees locale cls)
    by first [done | constructor; [by rewrite Ht|constructor]].
  simpl. rewrite Ht. simpl. unfold entries_of.
  destruct Htrailing as [-> | ->].
  - rewrite !(app_nil_r body). rewrite (split_no_blank cls body Hlines).
    rewrite filter_cons, filter_nil.
    destruct (transaction_match body); by rewrite ?app_nil_r.
  - rewrite (split_no_blank_LF cls body Hlines).
    rewrite !filter_cons, filter_nil.
    destruct (transaction_match (body ++ [LF])); by rewrite ?app_nil_r.
Qed.

End Entries.

(** An instance: the second of two transactions in a ledger file. *)
Lemma extracted_entry_trimmed_witness :
  (∀ c, head Sample.second_transaction = Some c
        ∨ last Sample.second_transaction = Some c →
        c ∉ Sample.whitespace)
  ∧ ∃ f text before after,
      f ∈ [Sample.ledger_path]
      ∧ text_of utf_8 (Sample.ledger_world Sample.two_transactions) f
        = Some text
      ∧ text = before ++ Sample.second_transaction ++ after.
Proof.
  apply (extracted_entry_trimmed Sample.whitespace utf_8 [Sample.ledger_path]
           (Sample.ledger_world Sample.two_transactions)
           [Sample.first_transaction; Sample.second_transaction]
           (snd (extract_beancount_entries Sample.whitespace utf_8
                   [Sample.ledger_path]
                   (Sample.ledger_world Sample.two_transactions)))).
  - by vm_compute.
  - right. by left.
Defined.

(** An instance: a ledger file, a file that is missing and a third
    file. *)
Lemma extractor_stops_at_unreadable_witness :
  extract_beancount_entries Sample.whitespace utf_8
    ([Sample.ledger_path] ++ lit "/missing.beancount" :: [Sample.ledger_path])
    (Sample.ledger_world Sample.two_transactions)
  = (Raise (FileNotFoundError (lit "/missing.beancount")),
     World (fs (Sample.ledger_world Sample.two_transactions)) ∅
       [OpenRead Sample.ledger_path; OpenRead (lit "/missing.beancount")]).
Proof.
  apply (extractor_stops_at_unreadable Sample.whitespace utf_8
           Sample.whitespace [Sample.ledger_path] (lit "/missing.beancount")
           [Sample.ledger_path] (Sample.ledger_world Sample.two_transactions)).
  - reflexivity.
  - constructor; [|constructor]. vm_compute. by eexists.
  - by vm_compute.
Defined.

(** An instance: the ledger file given twice. *)
Lemma extraction_is_per_file_witness :
  snd (extract_beancount_entries Sample.whitespace utf_8
         [Sample.ledger_path; Sample.ledger_path]
         (Sample.ledger_world Sample.two_transactions))
  = World (fs (Sample.ledger_world Sample.two_transactions)) ∅
      ([] ++ (OpenRead <$> [Sample.ledger_path; Sample.ledger_path]))
  ∧ ∃ per_file,
      Forall2 (λ f es,
                 fst (extract_beancount_entries Sample.whitespace utf_8 [f]
                        (Sample.ledger_world Sample.two_transactions))
                 = Return es)
        [Sample.ledger_path; Sample.ledger_path] per_file
      ∧ [Sample.first_transaction; Sample.second_transaction;
         Sample.first_transaction; Sample.second_transaction]
        = concat per_file.
Proof.
  apply (extraction_is_per_file Sample.whitespace utf_8
           [Sample.ledger_path; Sample.ledger_path]
           (Sample.ledger_world Sample.two_transactions)).
  by vm_compute.
Defined.

(** An instance: two transactions with no blank line between them. *)
Lemma unseparated_text_is_one_entry_witness :
  fst (extract_beancount_entries Sample.whitespace utf_8 [Sample.ledger_path]
         (Sample.ledger_world (Example.unseparated ++ [LF])))
  = Return (if transaction_match (Example.unseparated ++ [LF])
            then [strip Sample.whitespace (Example.unseparated ++ [LF])]
            else []).
Proof.
  apply (unseparated_text_is_one_entry Sample.whitespace utf_8
           Sample.whitespace).
  - reflexivity.
  - by vm_compute.
  - repeat (constructor; [by vm_compute|]). constructor.
  - by right.
Defined.

(** The entry of the two transactions is one string. *)
Lemma unseparated_transactions_merged :
  fst (extract_beancount_entries Sample.whitespace utf_8 [Sample.ledger_path]
         (Sample.ledger_world (Example.unseparated ++ [LF])))
  = Return [Example.unseparated].
Proof. by vm_compute. Qed.

Section Order.

Variable ees : str.
Variable locale : codec.

(** What a successful extraction says of its files. *)
Lemma extract_loop_readable files acc w entries w' :
  extract_loop ees locale files acc w = (Return entries, w') →
  Forall (λ f, is_Some (text_of locale w f)) files
  ∧ (files = [] ∨ is_Some (set_members ees)).
Proof.
  revert acc w. induction files as [|f files IH]; intros acc w Hrun.
  - split; [constructor | by left].
  - cbn [extract_loop] in Hrun. unfold bind at 1 in Hrun.
    destruct (read_text locale f w) as [[t| |] w1] eqn:Hread; [|done..].
    apply read_text_return in Hread as [Ht ->].
    unfold bind at 1, lift in Hrun.
    destruct (set_members ees) as [cls|] eqn:Hcls; [|done].
    apply IH in Hrun as [Hfiles _]. split; [|by right].
    constructor; [by rewrite Ht|].
    exact Hfiles.
Qed.

Lemma concat_perm {A} (ls ks : list (list A)) : ls ≡ₚ ks → concat ls ≡ₚ concat ks.
Proof.
  induction 1 as [|x ls ks _ IH|x y ls|ls ks ms _ IH1 _ IH2]; simpl.
  - done.
  - by rewrite IH.
  - rewrite !app_assoc. f_equiv. apply Permutation_app_comm.
  - by etrans.
Qed.

(** The order of the files decides the order of the entries and
    nothing else: when the extractor returns for the files in one
    order, it returns for them in any other order, with the same
    entries, as many times each, in another order. *)
Theorem extraction_order files1 files2 w entries1 w1 :
  files1 ≡ₚ files2 →
  extract_beancount_entries ees locale files1 w = (Return entries1, w1) →
  ∃ entries2 w2,
    extract_beancount_entries ees locale files2 w = (Return entries2, w2)
    ∧ entries1 ≡ₚ entries2.
Proof.
  intros Hperm Hrun. unfold extract_beancount_entries in *.
  destruct (extract_loop_readable _ _ _ _ _ Hrun) as [Hfiles [-> | [cls Hcls]]].
  - apply Permutation_nil_l in Hperm. subst files2. by exists entries1, w1.
  - rewrite (extract_loop_ok ees locale cls) in Hrun by done.
    injection Hrun as <- <-.
    rewrite (extract_loop_ok ees locale cls)
      by first [done | by rewrite <- Hperm].
    eexists _, _. split; [done|]. simpl.
    apply concat_perm. by apply fmap_Permutation.
Qed.

End Order.

(** An instance: the ledger file and a second file, in both orders. *)
Lemma extraction_order_witness :
  ∃ entries2 w2,
    extract_beancount_entries Sample.whitespace utf_8
      [lit "/b.beancount"; lit "/a.beancount"] Example.two_ledgers
    = (Return entries2, w2)
    ∧ [Sample.first_transaction; Sample.second_transaction] ≡ₚ entries2.
Proof.
  apply (extraction_order Sample.whitespace utf_8
           [lit "/a.beancount"; lit "/b.beancount"]
           [lit "/b.beancount"; lit "/a.beancount"] Example.two_ledgers
           [Sample.first_transaction; Sample.second_transaction]
           (snd (extract_beancount_entries Sample.whitespace utf_8
                   [lit "/a.beancount"; lit "/b.beancount"]
                   Example.two_ledgers))).
  - apply perm_swap.
  - by vm_compute.
Defined.

End EntryFacts.

(** ** The loader *)

Module LoaderFacts.

Import Str StrFacts Json JsonFacts EmitterFacts Spec Beancount ExtractorFacts
  TextFacts PipelineFacts Source.

Local Open Scope io_scope.

Section Loader.

Variable ees : str.
Variable get_absolute_path : str → str.
Variable gzip_decompress : bytes → option bytes.

(** The loop over the lines does nothing to the world. *)
Lemma load_lines_pure lines data w :
  load_lines ees lines data w
  = (fst (load_lines ees lines data (World ∅ ∅ [])), w).
Proof.
  revert data. induction lines as [|l lines IH]; intros data; [done|].
  simpl. unfold bind, lift.
  destruct (loads (strip ees l)) as [d|]; simpl; [|done].
  apply IH.
Qed.

(** The loader past the opening of the file. *)
Lemma load_jsonl_text input_path verbose w text :
  jsonl_text get_absolute_path gzip_decompress w input_path = Some text →
  load_jsonl ees get_absolute_path gzip_decompress input_path verbose w
  = ((let* data := load_lines ees (file_lines text) [] in
      when (bool_decide (0 < verbose)%Z)
        (print (MsgLoaded (length data) input_path));;
      ret data)
       (emit (OpenRead (get_absolute_path input_path)) w)).
Proof.
  unfold jsonl_text, load_jsonl, text_of.
  destruct (bool_decide (Path.suffix input_path = lit ".gz"));
    [|destruct (bool_decide (Path.suffix input_path = lit ".jsonl"));
      [|done]];
    intros Htext;
    destruct (fs w !! get_absolute_path input_path) as [z|] eqn:Hz;
    [|done| |done]; simpl in Htext.
  - destruct (gzip_decompress z) as [b|] eqn:Hb; [|done]. simpl in Htext.
    destruct (utf8_decode b) as [s|] eqn:Hs; [|done]. injection Htext as <-.
    unfold gzip_read_text, read_bytes, bind, lift, ret.
    rewrite Hz. simpl. by rewrite Hb, Hs.
  - destruct (utf8_decode z) as [s|] eqn:Hs; [|done]. injection Htext as <-.
    unfold read_text, read_bytes, bind, lift, ret.
    rewrite Hz. simpl. by rewrite Hs.
Qed.


(** [load_jsonl] never writes.  It leaves every file as it is, opens
    at most the file at the resolved path, for reading, and when it
    prints, it returns, and the number that it prints is the number of
    records that it returns. *)
Theorem load_jsonl_reads_one_file input_path verbose w o w' :
  load_jsonl ees get_absolute_path gzip_decompress input_path verbose w
  = (o, w') →
  fs w' = fs w ∧ readonly w' = readonly w
  ∧ ∃ evs,
      trace w' = trace w ++ evs
      ∧ (evs = [] ∧ o = Raise TypeError
         ∨ evs = [OpenRead (get_absolute_path input_path)]
         ∨ ∃ data,
             o = Return data
             ∧ evs = [OpenRead (get_absolute_path input_path);
                      Print (MsgLoaded (length data) input_path)]).
Proof.
  unfold load_jsonl.
  assert (∀ text w1,
            fs w1 = fs w → readonly w1 = readonly w →
            trace w1 = trace w ++ [OpenRead (get_absolute_path input_path)] →
            (let* data := load_lines ees (file_lines text) [] in
             when (bool_decide (0 < verbose)%Z)
               (print (MsgLoaded (length data) input_path));;
             ret data) w1 = (o, w') →
            fs w' = fs w ∧ readonly w' = readonly w
            ∧ ∃ evs,
                trace w' = trace w ++ evs
                ∧ (evs = [] ∧ o = Raise TypeError
                   ∨ evs = [OpenRead (get_absolute_path input_path)]
                   ∨ ∃ data,
                       o = Return data
                       ∧ evs = [OpenRead (get_absolute_path input_path);
                                Print (MsgLoaded (length data) input_path)]))
    as Hloop.
  { intros text w1 Hfs Hro Htr. unfold bind at 1.
    rewrite load_lines_pure.
    destruct (fst (load_lines ees (file_lines text) [] (World ∅ ∅ [])))
      as [data| |]; simpl.
    - unfold bind, when, print, ret. case_bool_decide; intros [= <- <-]; simpl.
      + do 2 (split; [done|]). eexists. rewrite Htr, <- app_assoc.
        split; [done|]. right. right. by exists data.
      + do 2 (split; [done|]). eexists. split; [done|]. by right; left.
    - intros [= <- <-]. do 2 (split; [done|]). eexists. split; [done|].
      by right; left.
    - intros [= <- <-]. do 2 (split; [done|]). eexists. split; [done|].
      by right; left. }
  assert (∀ e w1,
            fs w1 = fs w → readonly w1 = readonly w →
            trace w1 = trace w ++ [OpenRead (get_absolute_path input_path)] →
            (Raise e, w1) = (o, w') →
            fs w' = fs w ∧ readonly w' = readonly w
            ∧ ∃ evs,
                trace w' = trace w ++ evs
                ∧ (evs = [] ∧ o = Raise TypeError
                   ∨ evs = [OpenRead (get_absolute_path input_path)]
                   ∨ ∃ data,
                       o = Return data
                       ∧ evs = [OpenRead (get_absolute_path input_path);
                                Print (MsgLoaded (length data) input_path)]))
    as Hfail.
  { intros e w1 Hfs Hro Htr [= <- <-]. do 2 (split; [done|]).
    eexists. split; [done|]. by right; left. }
  destruct (bool_decide (Path.suffix input_path = lit ".gz"));
    [|destruct (bool_decide (Path.suffix input_path = lit ".jsonl"))].
  - unfold gzip_read_text, read_bytes.
    unfold bind at 1; unfold bind at 1; unfold bind at 1.
    destruct (fs w !! get_absolute_path input_path) as [z|]; simpl;
      [|by apply Hfail].
    unfold bind at 1.
    destruct (gzip_decompress z) as [b|]; simpl; [|by apply Hfail].
    unfold bind at 1.
    destruct (utf8_decode b) as [s|]; simpl; [|by apply Hfail].
    by apply Hloop.
  - unfold read_text, read_bytes.
    unfold bind at 1; unfold bind at 1; unfold bind at 1.
    destruct (fs w !! get_absolute_path input_path) as [z|]; simpl;
      [|by apply Hfail].
    unfold bind at 1.
    destruct (utf8_decode z) as [s|]; simpl; [|by apply Hfail].
    by apply Hloop.
  - intros [= <- <-]. do 2 (split; [done|]). exists [].
    rewrite app_nil_r. split; [done|]. by left.
Qed.


(** When there is no file at the resolved path, [load_jsonl] raises
    [FileNotFoundError] with that path, for a [.gz] as for a [.jsonl]
    path, after the attempt to open the file. *)
Theorem load_jsonl_missing_file input_path verbose w :
  Path.suffix input_path = lit ".gz" ∨ Path.suffix input_path = lit ".jsonl" →
  fs w !! get_absolute_path input_path = None →
  load_jsonl ees get_absolute_path gzip_decompress input_path verbose w
  = (Raise (FileNotFoundError (get_absolute_path input_path)),
     emit (OpenRead (get_absolute_path input_path)) w).
Proof.
  intros Hsuffix Hmissing. unfold load_jsonl.
  destruct Hsuffix as [-> | ->].
  - rewrite bool_decide_eq_true_2 by done.
    unfold gzip_read_text, read_bytes, bind. by rewrite Hmissing.
  - rewrite bool_decide_eq_false_2, bool_decide_eq_true_2 by done.
    unfold read_text, read_bytes, bind. by rewrite Hmissing.
Qed.

(** What the loader returns for the text that the emitter produces. *)
Lemma load_jsonl_emitted input_path verbose w entries :
  "{" ∉ ees → "}" ∉ ees →
  jsonl_text get_absolute_path gzip_decompress w input_path
  = Some (jsonl_of entries) →
  fst (load_jsonl ees get_absolute_path gzip_decompress input_path verbose w)
  = Return ((λ e, [(lit "Title", e)]) <$> entries).
Proof.
  intros Hopen Hclose Htext.
  rewrite (load_jsonl_text _ _ _ _ Htext), file_lines_jsonl.
  unfold bind at 1. rewrite load_lines_json by done.
  unfold bind, when, print, ret. by case_bool_decide.
Qed.

End Loader.

(** The entries serialized by the emitter and written by
    [compress_jsonl_data] to a [.gz] path, read back by [load_jsonl],
    are as many objects, in the same order, each with the entry as its
    [Title], when the preferred encoding of the locale is UTF-8,
    decompression undoes compression and no entry holds a surrogate,
    which UTF-8 does not encode. *)
Theorem gzip_roundtrip ees get_absolute_path gzip gunzip entries output_path
    verbose verbose' w :
  (∀ b, gunzip (gzip b) = Some b) →
  "{" ∉ ees → "}" ∉ ees →
  Path.suffix output_path = lit ".gz" →
  get_absolute_path output_path ∉ readonly w →
  Forall (λ e, forallb scalar e = true) entries →
  ∃ w1 w2 data,
    compress_jsonl_data get_absolute_path utf_8 gzip (jsonl_of entries)
      output_path verbose w
    = (Return tt, w1)
    ∧ load_jsonl ees get_absolute_path gunzip output_path verbose' w1
      = (Return data, w2)
    ∧ length data = length entries
    ∧ Json.lookup (lit "Title") <$> data = Some <$> entries.
Proof.
  intros Hgz Hopen Hclose Hsuffix Hwr Hentries.
  pose proof (jsonl_of_scalar entries Hentries) as Htext_scalar.
  assert (∃ w1,
            compress_jsonl_data get_absolute_path utf_8 gzip
              (jsonl_of entries) output_path verbose w = (Return tt, w1)
            ∧ fs w1 !! get_absolute_path output_path
              = Some (gzip (flat_map utf8_char (jsonl_of entries))))
    as (w1 & Hrun & Hfile).
  { unfold compress_jsonl_data, gzip_write_text, bind, when, print, ret.
    rewrite bool_decide_eq_false_2 by done. cbn [encode utf_8].
    rewrite utf8_encode_jsonl by done.
    case_bool_decide; eexists; (split; [done|]); simpl;
      by rewrite lookup_insert_eq. }
  assert (fst (load_jsonl ees get_absolute_path gunzip output_path verbose'
                 w1)
          = Return ((λ e, [(lit "Title", e)]) <$> entries)) as Hload.
  { apply load_jsonl_emitted; [done..|].
    unfold jsonl_text. rewrite bool_decide_eq_true_2 by done.
    rewrite Hfile. simpl. rewrite Hgz. simpl.
    rewrite utf8_roundtrip by done. simpl.
    by rewrite universal_newlines_jsonl. }
  destruct (load_jsonl ees get_absolute_path gunzip output_path verbose' w1)
    as [o w2] eqn:Hl.
  simpl in Hload. subst o.
  exists w1, w2, ((λ e, [(lit "Title", e)]) <$> entries).
  split; [done|]. split; [done|]. split.
  - by rewrite length_fmap.
  - rewrite <- list_fmap_compose. by apply list_fmap_ext.
Qed.

(** An instance: a file of two JSON lines, loaded with messages. *)
Lemma load_jsonl_reads_one_file_witness :
  let w := Example.jsonl_world
             (jsonl_of [Sample.first_transaction; Sample.cafe]) in
  let r := load_jsonl Sample.whitespace Sample.absolute
             Sample.stored_decompress (lit "/out.jsonl") 1 w in
  fs (snd r) = fs w ∧ readonly (snd r) = readonly w
  ∧ ∃ evs,
      trace (snd r) = trace w ++ evs
      ∧ (evs = [] ∧ fst r = Raise TypeError
         ∨ evs = [OpenRead (Sample.absolute (lit "/out.jsonl"))]
         ∨ ∃ data,
             fst r = Return data
             ∧ evs = [OpenRead (Sample.absolute (lit "/out.jsonl"));
                      Print (MsgLoaded (length data) (lit "/out.jsonl"))]).
Proof.
  apply (load_jsonl_reads_one_file Sample.whitespace Sample.absolute
           Sample.stored_decompress (lit "/out.jsonl") 1).
  by vm_compute.
Defined.


(** An instance: a [.gz] path in a world without files. *)
Lemma load_jsonl_missing_file_witness :
  load_jsonl Sample.whitespace Sample.absolute Sample.stored_decompress
    (lit "/out.jsonl.gz") 0 (World ∅ ∅ [])
  = (Raise (FileNotFoundError (Sample.absolute (lit "/out.jsonl.gz"))),
     emit (OpenRead (Sample.absolute (lit "/out.jsonl.gz"))) (World ∅ ∅ [])).
Proof.
  apply (load_jsonl_missing_file Sample.whitespace Sample.absolute
           Sample.stored_decompress (lit "/out.jsonl.gz") 0 (World ∅ ∅ [])).
  - left. by vm_compute.
  - done.
Defined.

(** An instance, with the stored container for gzip: four entries,
    with a line feed, a letter outside ASCII, the euro sign and a
    character beyond the basic plane. *)
Lemma gzip_roundtrip_witness :
  let entries := [Sample.first_transaction; Sample.cafe;
                  Example.euro_transaction; Example.astral] in
  ∃ w1 w2 data,
    compress_jsonl_data Sample.absolute utf_8 Sample.stored_compress
      (jsonl_of entries) (lit "/out.jsonl.gz") 1 (World ∅ ∅ [])
    = (Return tt, w1)
    ∧ load_jsonl Sample.whitespace Sample.absolute Sample.stored_decompress
        (lit "/out.jsonl.gz") 1 w1
      = (Return data, w2)
    ∧ length data = length entries
    ∧ Json.lookup (lit "Title") <$> data = Some <$> entries.
Proof.
  apply (gzip_roundtrip Sample.whitespace Sample.absolute
           Sample.stored_compress Sample.stored_decompress
           [Sample.first_transaction; Sample.cafe;
            Example.euro_transaction; Example.astral]
           (lit "/out.jsonl.gz") 1 1 (World ∅ ∅ [])).
  - by intros b.
  - intros Hin.
    repeat (apply elem_of_cons in Hin as [?|Hin]; [done|]).
    by apply elem_of_nil in Hin.
  - intros Hin.
    repeat (apply elem_of_cons in Hin as [?|Hin]; [done|]).
    by apply elem_of_nil in Hin.
  - by vm_compute.
  - apply not_elem_of_empty.
  - repeat (constructor; [by vm_compute|]). constructor.
Defined.

End LoaderFacts.

(** ** The run as a whole *)

Module RunFacts.

Import Str StrFacts Json JsonFacts EmitterFacts Spec Beancount ExtractorFacts
  TextFacts PipelineFacts Source Effects LoaderFacts.

Local Open Scope io_scope.

#[local] Hint Resolve writes_nothing_ret writes_nothing_raise
  writes_nothing_exit writes_nothing_lift writes_nothing_print
  writes_nothing_when writes_nothing_read_bytes writes_nothing_bind
  writes_nothing_read_text writes_nothing_extract_loop writes_nothing_locate
  writes_nothing_convert : frame.

(** *** One file written *)

Lemma writes_only_of_nothing {A} path (m : io A) :
  writes_nothing m → writes_only path m.
Proof.
  intros Hm w o w' Hrun.
  destruct (Hm _ _ _ Hrun) as (Hfs & Hro & evs & Htr & Hevs).
  split; [by rewrite Hfs|]. split; [done|].
  exists evs. split; [done|]. intros q Hq. by destruct (Hevs q).
Qed.

Lemma writes_only_bind {A B} path (m : io A) (k : A → io B) :
  writes_only path m → (∀ a, writes_only path (k a)) →
  writes_only path (bind m k).
Proof.
  intros Hm Hk w o w'. unfold bind.
  destruct (m w) as [[a|n|e] w1] eqn:Hmw;
    destruct (Hm _ _ _ Hmw) as (Hfs & Hro & evs & Htr & Hevs).
  - intros Hkw.
    destruct (Hk a _ _ _ Hkw) as (Hfs' & Hro' & evs' & Htr' & Hevs').
    split; [intros q Hq; by rewrite Hfs', Hfs|]. split; [congruence|].
    exists (evs ++ evs'). split; [by rewrite Htr', Htr, app_assoc|].
    intros q [?|?]%elem_of_app; auto.
  - intros [= <- <-]. eauto.
  - intros [= <- <-]. eauto.
Qed.

Lemma writes_only_write_text enc path text :
  writes_only path (write_text enc path text).
Proof.
  intros w o w'. unfold write_text.
  case_bool_decide; [|destruct (encode enc text)]; intros [= <- <-]; simpl;
    (split; [intros q Hq; by rewrite ?lookup_insert_ne|]);
    (split; [done|]); exists [OpenWrite path]; (split; [done|]);
    by intros q [= ->]%list_elem_of_singleton.
Qed.

Lemma writes_only_gzip_write_text gzip enc path text :
  writes_only path (gzip_write_text gzip enc path text).
Proof.
  intros w o w'. unfold gzip_write_text.
  case_bool_decide; [|destruct (encode enc text)]; intros [= <- <-]; simpl;
    (split; [intros q Hq; by rewrite ?lookup_insert_ne|]);
    (split; [done|]); exists [OpenWrite path]; (split; [done|]);
    by intros q [= ->]%list_elem_of_singleton.
Qed.

(** *** Messages *)

Lemma same_quiet_refl w : same_quiet w w.
Proof. done. Qed.

Lemma same_quiet_emit e w1 w2 :
  same_quiet w1 w2 → same_quiet (emit e w1) (emit e w2).
Proof.
  intros (Hfs & Hro & Htr). repeat split; [done..|]. simpl.
  unfold quiet in *. by rewrite !filter_app, Htr.
Qed.

Lemma same_quiet_store path b w1 w2 :
  same_quiet w1 w2 → same_quiet (store path b w1) (store path b w2).
Proof. intros (Hfs & Hro & Htr). repeat split; simpl; congruence. Qed.

Lemma same_quiet_progress_l e w1 w2 :
  progress e = true → same_quiet w1 w2 → same_quiet (emit e w1) w2.
Proof.
  intros He (Hfs & Hro & Htr). repeat split; [done..|]. simpl.
  unfold quiet in *. rewrite filter_app, Htr, filter_cons_False, filter_nil.
  - by rewrite app_nil_r.
  - by rewrite He.
Qed.

Lemma same_quiet_progress_r e w1 w2 :
  progress e = true → same_quiet w1 w2 → same_quiet w1 (emit e w2).
Proof.
  intros He (Hfs & Hro & Htr). repeat split; [done..|]. simpl.
  unfold quiet in *. rewrite filter_app, <- Htr, filter_cons_False, filter_nil.
  - by rewrite app_nil_r.
  - by rewrite He.
Qed.

Lemma alike_ret {A} (a : A) : alike (ret a) (ret a).
Proof. by intros w1 w2 H. Qed.

Lemma alike_raise {A} e : alike (@raise A e) (raise e).
Proof. by intros w1 w2 H. Qed.

Lemma alike_exit {A} n : alike (@exit A n) (exit n).
Proof. by intros w1 w2 H. Qed.

Lemma alike_lift {A} e (o : option A) : alike (lift e o) (lift e o).
Proof. destruct o; [apply alike_ret | apply alike_raise]. Qed.

Lemma alike_print m : alike (print m) (print m).
Proof. intros w1 w2 H. split; [done|]. by apply same_quiet_emit. Qed.

Lemma alike_bind {A B} (m1 m2 : io A) (k1 k2 : A → io B) :
  alike m1 m2 → (∀ a, alike (k1 a) (k2 a)) → alike (bind m1 k1) (bind m2 k2).
Proof.
  intros Hm Hk w1 w2 Hw. unfold bind.
  destruct (Hm _ _ Hw) as [Ho Hw'].
  destruct (m1 w1) as [o1 w1'], (m2 w2) as [o2 w2']. simpl in *. subst o2.
  destruct o1 as [a| |]; [by apply Hk | done..].
Qed.

(** A message that is printed or not with [verbose]. *)
Lemma alike_progress b1 b2 m1 m2 :
  progress (Print m1) = true → progress (Print m2) = true →
  alike (when b1 (print m1)) (when b2 (print m2)).
Proof.
  intros H1 H2 w1 w2 Hw. split; [by destruct b1, b2|].
  destruct b1, b2; simpl;
    auto using same_quiet_progress_l, same_quiet_progress_r.
Qed.

Lemma alike_when b m : alike m m → alike (when b m) (when b m).
Proof. destruct b; [done|]. intros _. apply alike_ret. Qed.

Lemma alike_read_bytes path : alike (read_bytes path) (read_bytes path).
Proof.
  intros w1 w2 Hw. unfold read_bytes.
  destruct Hw as (Hfs & Hro & Htr) eqn:E. rewrite Hfs.
  destruct (fs w2 !! path); (split; [done|]); simpl;
    apply same_quiet_emit; by repeat split.
Qed.

Lemma alike_write_text enc path text :
  alike (write_text enc path text) (write_text enc path text).
Proof.
  intros w1 w2 Hw. unfold write_text.
  pose proof Hw as (Hfs & Hro & Htr). rewrite Hro.
  case_bool_decide; [|destruct (encode enc text)]; (split; [done|]); simpl;
    auto using same_quiet_emit, same_quiet_store.
Qed.

Lemma alike_gzip_write_text gzip enc path text :
  alike (gzip_write_text gzip enc path text)
    (gzip_write_text gzip enc path text).
Proof.
  intros w1 w2 Hw. unfold gzip_write_text.
  pose proof Hw as (Hfs & Hro & Htr). rewrite Hro.
  case_bool_decide; [|destruct (encode enc text)]; (split; [done|]); simpl;
    auto using same_quiet_emit, same_quiet_store.
Qed.

Create HintDb alike.

#[local] Hint Resolve alike_ret alike_raise alike_exit alike_lift alike_print
  alike_when alike_read_bytes alike_write_text alike_gzip_write_text
  alike_bind : alike.

Section Program.

Variable ees : str.
Variable get_absolute_path : str → str.
Variable glob_glob : gmap str bytes → str → list str.
Variable set_iter : gset str → list str.
Variable locale : codec.
Variable gzip_compress : bytes → bytes.
Variable gzip_decompress : bytes → option bytes.

Local Abbreviation run files pat output_file verbose :=
  (beancount_to_jsonl ees get_absolute_path glob_glob set_iter locale
     gzip_compress files pat output_file verbose).

Local Abbreviation locate files pat verbose :=
  (get_beancount_files get_absolute_path glob_glob files pat verbose).

(** The pipeline changes no file but its output: whatever the
    arguments and however the run ends, every file at another path
    than the resolved output path is as it was, the input files among
    them, and no other file is opened for writing. *)
Theorem pipeline_writes_only_output files pat output_file verbose w :
  let r := beancount_to_jsonl ees get_absolute_path glob_glob set_iter locale
             gzip_compress files pat output_file verbose w in
  (∀ q, q ≠ get_absolute_path output_file → fs (snd r) !! q = fs w !! q)
  ∧ readonly (snd r) = readonly w
  ∧ ∃ evs,
      trace (snd r) = trace w ++ evs
      ∧ ∀ q, OpenWrite q ∈ evs → q = get_absolute_path output_file.
Proof.
  assert (writes_only (get_absolute_path output_file)
            (run files pat output_file verbose)) as Hframe.
  { unfold beancount_to_jsonl, extract_beancount_entries.
    apply writes_only_bind; [apply writes_only_of_nothing; frame|intros _].
    apply writes_only_bind; [apply writes_only_of_nothing; frame|intros found].
    apply writes_only_bind;
      [apply writes_only_of_nothing; frame|intros entries].
    apply writes_only_bind; [apply writes_only_of_nothing; frame|intros jsonl].
    apply writes_only_bind; [|intros _; apply writes_only_of_nothing; frame].
    repeat case_bool_decide.
    - unfold compress_jsonl_data.
      apply writes_only_bind; [apply writes_only_gzip_write_text|intros _].
      apply writes_only_of_nothing. frame.
    - unfold dump_jsonl.
      apply writes_only_bind; [apply writes_only_write_text|intros _].
      apply writes_only_of_nothing. frame.
    - apply writes_only_of_nothing. frame. }
  intros r. subst r.
  destruct (run files pat output_file verbose w) as [o w'] eqn:Hrun.
  exact (Hframe _ _ _ Hrun).
Qed.

(** When a located file cannot be read, the pipeline ends with the
    exception of the extractor, whatever the output path, and the
    output file is neither created nor emptied: the files are as they
    were and none was opened for writing. *)
Theorem unreadable_input_writes_nothing files pat output_file verbose w
    found w1 e w2 :
  is_none_or_empty files && is_none_or_empty pat = false →
  locate files pat verbose w = (Return found, w1) →
  extract_beancount_entries ees locale (set_iter found) w1 = (Raise e, w2) →
  run files pat output_file verbose w = (Raise e, w2)
  ∧ fs w2 = fs w
  ∧ ∃ evs, trace w2 = trace w ++ evs ∧ ∀ p, OpenWrite p ∉ evs.
Proof.
  intros Hvalid Hloc Hext.
  destruct (writes_nothing_locate _ _ _ _ _ _ _ _ Hloc)
    as (Hfs1 & _ & evs1 & Htr1 & Hevs1).
  destruct (writes_nothing_extract_loop _ _ _ _ _ _ _ Hext)
    as (Hfs2 & _ & evs2 & Htr2 & Hevs2).
  split; [|split; [congruence|]].
  - unfold beancount_to_jsonl.
    rewrite Hvalid. unfold when at 1. unfold bind at 1. unfold ret at 1.
    unfold bind at 1. rewrite Hloc.
    unfold bind at 1. by rewrite Hext.
  - exists (evs1 ++ evs2). split; [by rewrite Htr2, Htr1, app_assoc|].
    intros p [?|?]%elem_of_app; [by eapply Hevs1 | by eapply Hevs2].
Qed.

(** The pipeline and the loader together, for a locale whose decoder
    returns scalar values, as the decoders of Python do, UTF-8 among
    them: a run with a [.jsonl] output path that can be written
    returns the extracted entries and leaves, in place of whatever the
    file held, the UTF-8 bytes of their JSON lines; [load_jsonl] on the
    same path then returns one record for each entry that the run
    returned, in the same order, with the entry as its [Title]. *)
Theorem pipeline_then_load files pat output_file verbose verbose' w
    found w1 entries w2 :
  "{" ∉ ees → "}" ∉ ees →
  decodes_scalars locale →
  is_none_or_empty files && is_none_or_empty pat = false →
  locate files pat verbose w = (Return found, w1) →
  extract_beancount_entries ees locale (set_iter found) w1
  = (Return entries, w2) →
  Path.suffix output_file = lit ".jsonl" →
  get_absolute_path output_file ∉ readonly w →
  ∃ w3 w4 data,
    run files pat output_file verbose w = (Return entries, w3)
    ∧ fs w3 !! get_absolute_path output_file
      = Some (flat_map utf8_char (jsonl_of entries))
    ∧ load_jsonl ees get_absolute_path gzip_decompress output_file verbose' w3
      = (Return data, w4)
    ∧ Json.lookup (lit "Title") <$> data = Some <$> entries.
Proof.
  intros Hopen Hclose Hlocale Hvalid Hloc Hext Hsuffix Hwr.
  pose proof (extracted_scalar _ _ _ _ _ _ Hlocale Hext) as Hentries.
  pose proof (jsonl_of_scalar entries Hentries) as Htext_scalar.
  destruct (pipeline_front ees get_absolute_path glob_glob set_iter locale
              gzip_compress _ _ _ _ _ _ _ _ Hvalid Hloc Hext)
    as (w0 & Hfs0 & Hro0 & Hrun).
  destruct (dump_jsonl_ok get_absolute_path (jsonl_of entries) output_file
              verbose w0) as (w3 & Hdump & Hfs3); [by rewrite Hro0|done|].
  assert (run files pat output_file verbose w = (Return entries, w3))
    as Hrun3.
  { rewrite Hrun, Hsuffix.
    rewrite bool_decide_eq_false_2, bool_decide_eq_true_2 by done.
    unfold bind. by rewrite Hdump. }
  assert (fst (load_jsonl ees get_absolute_path gzip_decompress output_file
                 verbose' w3)
          = Return ((λ e, [(lit "Title", e)]) <$> entries)) as Hload.
  { apply load_jsonl_emitted; [done..|].
    unfold jsonl_text, text_of. rewrite Hsuffix.
    rewrite bool_decide_eq_false_2, bool_decide_eq_true_2 by done.
    rewrite Hfs3, lookup_insert_eq. simpl.
    rewrite utf8_roundtrip by done. simpl.
    by rewrite universal_newlines_jsonl. }
  destruct (load_jsonl ees get_absolute_path gzip_decompress output_file
              verbose' w3) as [o w4] eqn:Hl.
  simpl in Hload. subst o.
  exists w3, w4, ((λ e, [(lit "Title", e)]) <$> entries).
  split; [done|]. split; [by rewrite Hfs3, lookup_insert_eq|].
  split; [done|].
  rewrite <- list_fmap_compose. by apply list_fmap_ext.
Qed.

Lemma alike_extract_loop files acc :
  alike (extract_loop ees locale files acc) (extract_loop ees locale files acc).
Proof.
  revert acc. induction files as [|f files IH]; intros acc; simpl.
  - apply alike_ret.
  - unfold read_text. auto 10 with alike.
Qed.

Lemma alike_locate files pat v1 v2 :
  alike (locate files pat v1) (locate files pat v2).
Proof.
  unfold get_beancount_files.
  apply alike_bind.
  - destruct pat as [[|c cs]|]; try apply alike_ret.
    intros w1 w2 Hw. pose proof Hw as (Hfs & _). rewrite Hfs.
    split; [done|]. by apply same_quiet_emit.
  - intros filtered. apply alike_bind; [auto with alike|intros _].
    apply alike_bind; [by apply alike_progress|intros _]. apply alike_ret.
Qed.

(** The argument [verbose] changes nothing but the messages: two runs
    of the pipeline that differ in [verbose] only end the same way,
    with the same value or the same exception, leave the same files,
    and do the same things in the same order, the messages that are
    printed for a positive [verbose] apart. *)
Theorem verbose_only_prints files pat output_file v1 v2 w :
  let r1 := run files pat output_file v1 w in
  let r2 := run files pat output_file v2 w in
  fst r1 = fst r2 ∧ fs (snd r1) = fs (snd r2)
  ∧ quiet (trace (snd r1)) = quiet (trace (snd r2)).
Proof.
  assert (alike (run files pat output_file v1) (run files pat output_file v2))
    as Halike.
  { unfold beancount_to_jsonl, extract_beancount_entries.
    apply alike_bind; [auto 10 with alike|intros _].
    apply alike_bind; [apply alike_locate|intros found].
    apply alike_bind; [apply alike_extract_loop|intros entries].
    apply alike_bind; [|intros jsonl].
    { unfold convert_beancount_entries_to_jsonl.
      apply alike_bind; [by apply alike_progress|intros _]. apply alike_ret. }
    apply alike_bind; [|intros _; apply alike_ret].
    repeat case_bool_decide; [| |apply alike_ret].
    - unfold compress_jsonl_data.
      apply alike_bind; [apply alike_gzip_write_text|intros _].
      by apply alike_progress.
    - unfold dump_jsonl.
      apply alike_bind; [apply alike_write_text|intros _].
      by apply alike_progress. }
  intros r1 r2. destruct (Halike w w (same_quiet_refl w)) as (Ho & Hfs & _ & Htr).
  done.
Qed.

(** The locator returns, and the set that it returns holds the
    resolved paths of the explicit list and the matches of the glob
    filter, and nothing else.  It opens no file, and when every path of
    the set ends in [.bean] or [.beancount] it prints no warning. *)
Theorem locator_finds_exactly files pat verbose w :
  ∃ found w' evs,
    locate files pat verbose w = (Return found, w')
    ∧ fs w' = fs w ∧ trace w' = trace w ++ evs
    ∧ (∀ p, p ∈ found
            ↔ ((∃ fl f, files = Some fl ∧ f ∈ fl ∧ p = get_absolute_path f)
               ∨ (∃ c cs, pat = Some (c :: cs)
                          ∧ p ∈ glob_glob (fs w)
                                  (get_absolute_path (c :: cs)))))
    ∧ (∀ q, (OpenRead q ∉ evs) ∧ (OpenWrite q ∉ evs))
    ∧ ((∀ p, p ∈ found → endswith (lit ".bean") p = true
                         ∨ endswith (lit ".beancount") p = true) →
       ∀ nb, Print (MsgNonBeancount nb) ∉ evs).
Proof.
  unfold get_beancount_files.
  set (absolute := match files with
                   | Some (f :: fl) =>
                       list_to_set (get_absolute_path <$> f :: fl)
                   | _ => ∅
                   end : gset str).
  set (filtered := match pat with
                   | Some (c :: cs) =>
                       list_to_set
                         (glob_glob (fs w) (get_absolute_path (c :: cs)))
                   | _ => ∅
                   end : gset str).
  assert (∀ p, p ∈ absolute ∪ filtered
               ↔ ((∃ fl f, files = Some fl ∧ f ∈ fl
                           ∧ p = get_absolute_path f)
                  ∨ (∃ c cs, pat = Some (c :: cs)
                             ∧ p ∈ glob_glob (fs w)
                                     (get_absolute_path (c :: cs)))))
    as Hin.
  { intros p. rewrite elem_of_union.
    assert (p ∈ absolute
            ↔ ∃ fl f, files = Some fl ∧ f ∈ fl ∧ p = get_absolute_path f)
      as ->.
    { subst absolute. destruct files as [[|f fl]|].
      - rewrite elem_of_empty. split; [done|].
        intros (fl & f & [= <-] & Hf & _). by apply elem_of_nil in Hf.
      - rewrite elem_of_list_to_set, list_elem_of_fmap. split.
        + intros (g & -> & Hg). eauto.
        + intros (fl' & g & [= <-] & Hg & ->). eauto.
      - rewrite elem_of_empty. split; [done|]. by intros (fl & f & ? & _). }
    assert (p ∈ filtered
            ↔ ∃ c cs, pat = Some (c :: cs)
                      ∧ p ∈ glob_glob (fs w) (get_absolute_path (c :: cs)))
      as ->; [|done].
    subst filtered. destruct pat as [[|c cs]|].
    - rewrite elem_of_empty. split; [done|]. by intros (c & cs & ? & _).
    - rewrite elem_of_list_to_set. split; [eauto|].
      by intros (c' & cs' & [= <- <-] & Hg).
    - rewrite elem_of_empty. split; [done|]. by intros (c & cs & ? & _). }
  assert ((∀ p, p ∈ absolute ∪ filtered →
                endswith (lit ".bean") p = true
                ∨ endswith (lit ".beancount") p = true) →
          any (filter not_beancount (absolute ∪ filtered)) = false) as Hquiet.
  { intros Hall. apply bool_decide_eq_false. intros (p & Hp & _).
    apply elem_of_filter in Hp as [[Hb Hbc] Hp].
    destruct (Hall p Hp); congruence. }
  exists (absolute ∪ filtered).
  unfold bind, when, print, ret.
  destruct pat as [[|c cs]|]; fold filtered;
    destruct (any (filter not_beancount (absolute ∪ filtered))) eqn:Hany;
    case_bool_decide; simpl; eexists _, _; (split; [reflexivity|]);
    (split; [done|]); simpl; rewrite <- ?app_assoc;
    (split; [try reflexivity; by rewrite app_nil_r|]); (split; [done|]);
    (split;
     [intros q; split; intros Hq; cbn [app] in Hq;
      repeat (apply elem_of_cons in Hq as [?|Hq]; [done|]);
      by apply elem_of_nil in Hq|]);
    intros Hall nb Hq; try discriminate (Hquiet Hall);
    cbn [app] in Hq;
    repeat (apply elem_of_cons in Hq as [?|Hq]; [done|]);
    by apply elem_of_nil in Hq.
Qed.

End Program.

(** *** Instances *)

Local Abbreviation sample_run files pat output_file verbose :=
  (beancount_to_jsonl Sample.whitespace Sample.absolute Sample.no_glob
     elements utf_8 Sample.stored_compress files pat output_file verbose).

(** An instance: a file list that names a file which does not exist. *)
Lemma unreadable_input_writes_nothing_witness :
  let w := Sample.ledger_world Sample.two_transactions in
  sample_run (Some [lit "/missing.beancount"]) None (lit "/out.jsonl") 0 w
  = (Raise (FileNotFoundError (lit "/missing.beancount")),
     World (fs w) ∅ [OpenRead (lit "/missing.beancount")])
  ∧ fs (World (fs w) ∅ [OpenRead (lit "/missing.beancount")]) = fs w
  ∧ ∃ evs,
      trace (World (fs w) ∅ [OpenRead (lit "/missing.beancount")])
      = trace w ++ evs
      ∧ ∀ p, OpenWrite p ∉ evs.
Proof.
  eapply (unreadable_input_writes_nothing Sample.whitespace Sample.absolute
            Sample.no_glob elements utf_8 Sample.stored_compress
            (Some [lit "/missing.beancount"]) None (lit "/out.jsonl") 0
            (Sample.ledger_world Sample.two_transactions)).
  - reflexivity.
  - reflexivity.
  - by vm_compute.
Defined.

(** An instance: one ledger file with two transactions, the second
    with an amount in euro. *)
Lemma pipeline_then_load_witness :
  let entries := [Sample.first_transaction; Example.euro_transaction] in
  ∃ w3 w4 data,
    sample_run (Some [Sample.ledger_path]) None (lit "/out.jsonl") 1
      (Sample.ledger_world Example.euro_ledger)
    = (Return entries, w3)
    ∧ fs w3 !! Sample.absolute (lit "/out.jsonl")
      = Some (flat_map utf8_char (jsonl_of entries))
    ∧ load_jsonl Sample.whitespace Sample.absolute Sample.stored_decompress
        (lit "/out.jsonl") 1 w3
      = (Return data, w4)
    ∧ Json.lookup (lit "Title") <$> data = Some <$> entries.
Proof.
  eapply (pipeline_then_load Sample.whitespace Sample.absolute
            Sample.no_glob elements utf_8 Sample.stored_compress
            Sample.stored_decompress
            (Some [Sample.ledger_path]) None (lit "/out.jsonl") 1 1
            (Sample.ledger_world Example.euro_ledger)).
  - intros Hin.
    repeat (apply elem_of_cons in Hin as [?|Hin]; [done|]).
    by apply elem_of_nil in Hin.
  - intros Hin.
    repeat (apply elem_of_cons in Hin as [?|Hin]; [done|]).
    by apply elem_of_nil in Hin.
  - apply utf_8_decodes_scalars.
  - reflexivity.
  - vm_compute. reflexivity.
  - by vm_compute.
  - by vm_compute.
  - apply not_elem_of_empty.
Defined.

End RunFacts.

(** ** The JSON lines *)

Module LinesFacts.

Import Str StrFacts Json JsonFacts EmitterFacts Spec Beancount.

Lemma titles_inj (a b : list str) :
  (λ e, Some [(lit "Title", e)]) <$> a = (λ e, Some [(lit "Title", e)]) <$> b →
  a = b.
Proof.
  revert b. induction a as [|x a IH]; intros [|y b]; try done.
  rewrite !fmap_cons. intros [= -> Hab]. f_equal. by apply IH.
Qed.

(** The emitter works entry by entry and loses nothing: the JSON
    lines of two lists put together are the lines of the first
    followed by the lines of the second, and two lists of entries with
    the same JSON lines are the same list. *)
Theorem emitter_is_injective (a b : list str) :
  jsonl_of (a ++ b) = jsonl_of a ++ jsonl_of b
  ∧ (jsonl_of a = jsonl_of b → a = b).
Proof.
  split.
  - by rewrite !jsonl_of_concat, fmap_app, concat_app.
  - intros Hab. apply (f_equal file_lines) in Hab.
    rewrite !file_lines_jsonl in Hab.
    apply (f_equal (fmap loads)) in Hab.
    rewrite <- !list_fmap_compose in Hab.
    apply titles_inj. etrans; [|etrans; [exact Hab|]];
      apply list_fmap_ext; intros _ e _; simpl;
      [symmetry|]; apply loads_dumps_title; by repeat constructor.
Qed.

End LinesFacts.
